(** * Euler's spiral: a shallow embedding of [script.js]

    The script keeps its whole state in module-level [let] bindings and
    mutates them from three kinds of entry points: the generator step
    [update], the redraw [draw] and the control-panel callbacks.  The
    embedding threads one record of those globals through every function.

    Numbers.  A JavaScript number is modelled as a real number or [NaN].
    Rounding, signed zeros and the two infinities of IEEE doubles are left
    out: arithmetic is exact, and a division by zero (which would give an
    infinity or NaN in the browser) gives [NaN].

    Canvas.  The 2D context is write-only for the script, so it is modelled
    as the ordered log of the calls and property writes made on it. *)

From Stdlib Require Import Reals Lra Lia List String Bool Arith.
Import ListNotations.

Open Scope R_scope.

(** ** JavaScript numbers *)

Inductive number : Type :=
| NaN
| Num (r : R).

Declare Scope js_scope.
Delimit Scope js_scope with js.
Bind Scope js_scope with number.

Module JsNum.

Definition lift1 (f : R -> R) (a : number) : number :=
  match a with
  | Num r => Num (f r)
  | NaN => NaN
  end.

Definition lift2 (f : R -> R -> R) (a b : number) : number :=
  match a, b with
  | Num r, Num s => Num (f r s)
  | _, _ => NaN
  end.

Definition neg := lift1 Ropp.
Definition add := lift2 Rplus.
Definition sub := lift2 Rminus.
Definition mul := lift2 Rmult.

(** [a / b]; the browser's infinities for a zero divisor are not numbers
    of the model. *)
Definition div (a b : number) : number :=
  match a, b with
  | Num r, Num s => if Req_dec_T s 0 then NaN else Num (r / s)
  | _, _ => NaN
  end.

(** [a != b] on numbers: [NaN] differs from everything, itself included. *)
Definition neq (a b : number) : bool :=
  match a, b with
  | Num r, Num s => if Req_dec_T r s then false else true
  | _, _ => true
  end.

(** A number used as a condition: 0 and [NaN] are falsy. *)
Definition truthy (a : number) : bool :=
  match a with
  | Num r => if Req_dec_T r 0 then false else true
  | NaN => false
  end.

Definition is_num (a : number) : Prop :=
  match a with
  | Num _ => True
  | NaN => False
  end.

End JsNum.

Notation "- a" := (JsNum.neg a) : js_scope.
Infix "+" := JsNum.add : js_scope.
Infix "-" := JsNum.sub : js_scope.
Infix "*" := JsNum.mul : js_scope.
Infix "/" := JsNum.div : js_scope.
Infix "!=" := JsNum.neq (at level 70, no associativity) : js_scope.

Module Math.

Definition PI : number := Num Rtrigo1.PI.
Definition cos : number -> number := JsNum.lift1 Rtrigo_def.cos.
Definition sin : number -> number := JsNum.lift1 Rtrigo_def.sin.
Definition min : number -> number -> number := JsNum.lift2 Rmin.
Definition max : number -> number -> number := JsNum.lift2 Rmax.

End Math.

(** ** Data *)

Record Point : Type := mkPoint { x : number; y : number }.

Record WindowData : Type := mkWindowData {
  centerX : number;
  centerY : number;
  width : number;
  height : number;
  maxSize : number;
  scaleFactor : number
}.

(** What the script does to the canvas context, in order. *)
Inductive CanvasCall : Type :=
| set_lineCap (v : string)
| set_lineWidth (v : number)
| set_fillStyle (v : string)
| set_strokeStyle (v : string)
| fillRect (a b w h : number)
| save
| restore
| translate (a b : number)
| beginPath
| moveTo (a b : number)
| lineTo (a b : number)
| stroke.

(** The module-level bindings of the script. *)
Record State : Type := mkState {
  ctx : list CanvasCall;
  drawsPerFrame : number;
  frameRate : number;
  stepSize : number;
  angleStepSize : number;
  points : list Point;
  running : bool;
  pointX : number;
  pointY : number;
  direction : number;
  angleAddend : number;
  minX : number;
  maxX : number;
  minY : number;
  maxY : number;
  stepAmount : number;
  resetAfterChange : bool
}.

Definition screenWidth : number := Num 600.
Definition screenHeight : number := Num 600.

(** *** Assignments to one global *)

Definition set_ctx (log : list CanvasCall) (g : State) : State :=
  mkState log (drawsPerFrame g) (frameRate g) (stepSize g)
    (angleStepSize g) (points g) (running g) (pointX g) (pointY g)
    (direction g) (angleAddend g) (minX g) (maxX g) (minY g) (maxY g)
    (stepAmount g) (resetAfterChange g).

(** One more call on the canvas context. *)
Definition call (c : CanvasCall) (g : State) : State :=
  set_ctx (ctx g ++ [c]) g.

Definition set_drawsPerFrame (v : number) (g : State) : State :=
  mkState (ctx g) v (frameRate g) (stepSize g)
    (angleStepSize g) (points g) (running g) (pointX g) (pointY g)
    (direction g) (angleAddend g) (minX g) (maxX g) (minY g) (maxY g)
    (stepAmount g) (resetAfterChange g).

Definition set_frameRate (v : number) (g : State) : State :=
  mkState (ctx g) (drawsPerFrame g) v (stepSize g)
    (angleStepSize g) (points g) (running g) (pointX g) (pointY g)
    (direction g) (angleAddend g) (minX g) (maxX g) (minY g) (maxY g)
    (stepAmount g) (resetAfterChange g).

Definition set_stepSize (v : number) (g : State) : State :=
  mkState (ctx g) (drawsPerFrame g) (frameRate g) v
    (angleStepSize g) (points g) (running g) (pointX g) (pointY g)
    (direction g) (angleAddend g) (minX g) (maxX g) (minY g) (maxY g)
    (stepAmount g) (resetAfterChange g).

Definition set_angleStepSize (v : number) (g : State) : State :=
  mkState (ctx g) (drawsPerFrame g) (frameRate g) (stepSize g)
    v (points g) (running g) (pointX g) (pointY g)
    (direction g) (angleAddend g) (minX g) (maxX g) (minY g) (maxY g)
    (stepAmount g) (resetAfterChange g).

Definition set_points (v : list Point) (g : State) : State :=
  mkState (ctx g) (drawsPerFrame g) (frameRate g) (stepSize g)
    (angleStepSize g) v (running g) (pointX g) (pointY g)
    (direction g) (angleAddend g) (minX g) (maxX g) (minY g) (maxY g)
    (stepAmount g) (resetAfterChange g).

Definition set_running (v : bool) (g : State) : State :=
  mkState (ctx g) (drawsPerFrame g) (frameRate g) (stepSize g)
    (angleStepSize g) (points g) v (pointX g) (pointY g)
    (direction g) (angleAddend g) (minX g) (maxX g) (minY g) (maxY g)
    (stepAmount g) (resetAfterChange g).

Definition set_pointX (v : number) (g : State) : State :=
  mkState (ctx g) (drawsPerFrame g) (frameRate g) (stepSize g)
    (angleStepSize g) (points g) (running g) v (pointY g)
    (direction g) (angleAddend g) (minX g) (maxX g) (minY g) (maxY g)
    (stepAmount g) (resetAfterChange g).

Definition set_pointY (v : number) (g : State) : State :=
  mkState (ctx g) (drawsPerFrame g) (frameRate g) (stepSize g)
    (angleStepSize g) (points g) (running g) (pointX g) v
    (direction g) (angleAddend g) (minX g) (maxX g) (minY g) (maxY g)
    (stepAmount g) (resetAfterChange g).

Definition set_direction (v : number) (g : State) : State :=
  mkState (ctx g) (drawsPerFrame g) (frameRate g) (stepSize g)
    (angleStepSize g) (points g) (running g) (pointX g) (pointY g)
    v (angleAddend g) (minX g) (maxX g) (minY g) (maxY g)
    (stepAmount g) (resetAfterChange g).

Definition set_angleAddend (v : number) (g : State) : State :=
  mkState (ctx g) (drawsPerFrame g) (frameRate g) (stepSize g)
    (angleStepSize g) (points g) (running g) (pointX g) (pointY g)
    (direction g) v (minX g) (maxX g) (minY g) (maxY g)
    (stepAmount g) (resetAfterChange g).

Definition set_minX (v : number) (g : State) : State :=
  mkState (ctx g) (drawsPerFrame g) (frameRate g) (stepSize g)
    (angleStepSize g) (points g) (running g) (pointX g) (pointY g)
    (direction g) (angleAddend g) v (maxX g) (minY g) (maxY g)
    (stepAmount g) (resetAfterChange g).

Definition set_maxX (v : number) (g : State) : State :=
  mkState (ctx g) (drawsPerFrame g) (frameRate g) (stepSize g)
    (angleStepSize g) (points g) (running g) (pointX g) (pointY g)
    (direction g) (angleAddend g) (minX g) v (minY g) (maxY g)
    (stepAmount g) (resetAfterChange g).

Definition set_minY (v : number) (g : State) : State :=
  mkState (ctx g) (drawsPerFrame g) (frameRate g) (stepSize g)
    (angleStepSize g) (points g) (running g) (pointX g) (pointY g)
    (direction g) (angleAddend g) (minX g) (maxX g) v (maxY g)
    (stepAmount g) (resetAfterChange g).

Definition set_maxY (v : number) (g : State) : State :=
  mkState (ctx g) (drawsPerFrame g) (frameRate g) (stepSize g)
    (angleStepSize g) (points g) (running g) (pointX g) (pointY g)
    (direction g) (angleAddend g) (minX g) (maxX g) (minY g) v
    (stepAmount g) (resetAfterChange g).

Definition set_stepAmount (v : number) (g : State) : State :=
  mkState (ctx g) (drawsPerFrame g) (frameRate g) (stepSize g)
    (angleStepSize g) (points g) (running g) (pointX g) (pointY g)
    (direction g) (angleAddend g) (minX g) (maxX g) (minY g) (maxY g)
    v (resetAfterChange g).

Definition set_resetAfterChange (v : bool) (g : State) : State :=
  mkState (ctx g) (drawsPerFrame g) (frameRate g) (stepSize g)
    (angleStepSize g) (points g) (running g) (pointX g) (pointY g)
    (direction g) (angleAddend g) (minX g) (maxX g) (minY g) (maxY g)
    (stepAmount g) v.

(** *** Outcome of a function that may throw

    A throw leaves the globals written so far in place; the browser reports
    the error and the next callback runs on that state. *)

Inductive exn : Type := TypeError.

Inductive outcome : Type :=
| Normal (g : State)
| Thrown (e : exn) (g : State).

Definition state_of (o : outcome) : State :=
  match o with
  | Normal g => g
  | Thrown _ g => g
  end.

(** ** The script *)

(** Lines 55-70. *)
Definition getWindowData (g : State) : WindowData :=
  let centerX := ((minX g + maxX g) / Num 2)%js in
  let centerY := ((minY g + maxY g) / Num 2)%js in
  let width := (maxX g - minX g)%js in
  let height := (maxY g - minY g)%js in
  let maxSize := Math.max width height in
  let scaleFactor := (maxSize / Math.max screenWidth screenHeight)%js in
  mkWindowData centerX centerY width height maxSize scaleFactor.

(** The divisor of lines 81 and 82. *)
Definition denominator (win : WindowData) : number :=
  (maxSize win + Num 10)%js.

(** Lines 79-84. *)
Definition transformPoint (a b : number) (win : WindowData) : Point :=
  let a := ((a - centerX win) / denominator win
            * Math.max screenWidth screenHeight)%js in
  let b := ((b - centerY win) / denominator win
            * Math.max screenWidth screenHeight)%js in
  mkPoint a b.

(** Lines 103-106. *)
Definition clear (g : State) : State :=
  let g := call (set_fillStyle "black") g in
  call (fillRect (Num 0) (Num 0) screenWidth screenHeight) g.

(** Lines 108-120.  A primed name is the value of the global after its
    assignment; [direction] and [angleAddend] are read by lines 109-112
    before they are written. *)
Definition update (g : State) : State :=
  let pointX' :=
    (pointX g + Math.cos (direction g * Math.PI / Num 180) * stepSize g)%js in
  let pointY' :=
    (pointY g + Math.sin (direction g * Math.PI / Num 180) * stepSize g)%js in
  let direction' := (direction g + angleAddend g)%js in
  let angleAddend' := (angleAddend g + angleStepSize g)%js in
  let points' := points g ++ [mkPoint pointX' pointY'] in
  let minX' := Math.min (minX g) pointX' in
  let maxX' := Math.max (maxX g) pointX' in
  let minY' := Math.min (minY g) pointY' in
  let maxY' := Math.max (maxY g) pointY' in
  mkState (ctx g) (drawsPerFrame g) (frameRate g) (stepSize g)
    (angleStepSize g) points' (running g)
    pointX' pointY' direction' angleAddend'
    minX' maxX' minY' maxY'
    (stepAmount g) (resetAfterChange g).

(** The [for ... of] loop of lines 140-143. *)
Definition draw_lines (win : WindowData) (ps : list Point) (g : State) : State :=
  fold_left
    (fun g point =>
       let p := transformPoint (x point) (y point) win in
       call (lineTo (x p) (y p)) g)
    ps g.

(** Lines 122-148.  [points[0]] is [undefined] on an empty array and reading
    its [x] throws. *)
Definition draw (g : State) : outcome :=
  let g := clear g in
  let g := call save g in
  let g := call (translate (screenWidth / Num 2) (screenHeight / Num 2))%js g in
  let windowData := getWindowData g in
  let g := call (set_strokeStyle "white") g in
  let g := call beginPath g in
  match points g with
  | [] => Thrown TypeError g
  | first :: _ =>
      let p := transformPoint (x first) (y first) windowData in
      let g := call (moveTo (x p) (y p)) g in
      let g := draw_lines windowData (points g) g in
      let g := call stroke g in
      Normal (call restore g)
  end.

(** Lines 86-101. *)
Definition reset (g : State) : outcome :=
  let g := clear g in
  let g := set_pointX (Num 0) g in
  let g := set_pointY (Num 0) g in
  let g := set_direction (Num 0) g in
  let g := set_angleAddend (Num 0) g in
  let g := set_minX (Num 0) g in
  let g := set_maxX (Num 0) g in
  let g := set_minY (Num 0) g in
  let g := set_maxY (Num 0) g in
  let g := set_points [] g in
  let g := update g in
  draw g.

(** The generator globals as lines 88-98 leave them, before [reset] goes
    on to [update]. *)
Definition rewind (g : State) : State :=
  mkState (ctx g) (drawsPerFrame g) (frameRate g) (stepSize g)
    (angleStepSize g) [] (running g) (Num 0) (Num 0) (Num 0) (Num 0)
    (Num 0) (Num 0) (Num 0) (Num 0) (stepAmount g) (resetAfterChange g).

(** The canvas calls of one [draw] of the points [ps] through [win]. *)
Definition draw_log (win : WindowData) (first : Point) (ps : list Point)
  : list CanvasCall :=
  [set_fillStyle "black";
   fillRect (Num 0) (Num 0) screenWidth screenHeight;
   save;
   translate (screenWidth / Num 2)%js (screenHeight / Num 2)%js;
   set_strokeStyle "white";
   beginPath;
   moveTo (x (transformPoint (x first) (y first) win))
          (y (transformPoint (x first) (y first) win))]
  ++ map (fun point =>
            lineTo (x (transformPoint (x point) (y point) win))
                   (y (transformPoint (x point) (y point) win))) ps
  ++ [stroke; restore].

(** Lines 170-172. *)
Definition tryClear (g : State) : outcome :=
  if resetAfterChange g then reset g else Normal g.

(** The loop [for (let i = n; i--;) update();] of lines 155-156 and
    181-182.  Its test reads [i] and then decrements it, so it stops when it
    reads 0 or [NaN]; from any other start than a natural number it never
    stops.  [fuel] bounds the number of tests made, and [None] says that the
    bound was reached. *)
Fixpoint countdown (fuel : nat) (i : number) (g : State) : option State :=
  match fuel with
  | O => None
  | S fuel =>
      if JsNum.truthy i then countdown fuel (i - Num 1)%js (update g)
      else Some g
  end.

(** Lines 152-160, without the re-arming of the timer at line 159. *)
Definition drawHandler (fuel : nat) (g : State) : option outcome :=
  if running g
  then option_map draw (countdown fuel (drawsPerFrame g) g)
  else Some (Normal g).

(** *** Control-panel callbacks (lines 174-230)

    The callbacks of the number inputs take [value], the result of
    [parseInt] or [parseFloat] on the text of the input; the one of the
    checkbox takes the truth value of what the event carries. *)

Definition on_Start (g : State) : State := set_running true g.

Definition on_Stop (g : State) : State := set_running false g.

Definition on_Step (fuel : nat) (g : State) : option outcome :=
  option_map draw (countdown fuel (stepAmount g) g).

Definition on_Steps (value : number) (g : State) : State :=
  if (value != NaN)%js then set_stepAmount value g else g.

Definition on_Reset (g : State) : outcome := reset g.

Definition on_Framerate (value : number) (g : State) : State :=
  if (value != NaN)%js then set_frameRate value g else g.

Definition on_drawsPerFrame (value : number) (g : State) : State :=
  if (value != NaN)%js then set_drawsPerFrame value g else g.

Definition on_StepSize (value : number) (g : State) : State :=
  if (value != NaN)%js then set_stepSize value g else g.

Definition on_DirectionStepSize (value : number) (g : State) : State :=
  if (value != NaN)%js then set_angleStepSize value g else g.

Definition on_ResetOnChange (value : bool) (g : State) : State :=
  set_resetAfterChange value g.

(** *** The state once the script has been loaded

    Lines 13-49 and 166-168 give the bindings; lines 23, 24 and 150 are the
    only canvas calls made while loading ([drawHandler] at line 162 finds
    [running] false). *)
Definition loaded : State :=
  clear
    (mkState
       [set_lineCap "round"; set_lineWidth (Num 1)]
       (Num 1) (Num 60) (Num 20) (Num 10)
       [] false
       (Num 0) (Num 0) (Num 0) (Num 0)
       (- screenWidth / Num 2)%js (screenWidth / Num 2)%js
       (- screenHeight / Num 2)%js (screenHeight / Num 2)%js
       (Num 1) false).

(** ** Runs of the script *)

(** [n] consecutive calls of [update]. *)
Definition steps (n : nat) (g : State) : State := Nat.iter n update g.

(** What can happen to the globals after loading.  The timer callback
    [drawHandler] and the Step button [on_Step], when their loop ends, are a
    run of [Update]s followed by one [Draw] (see [countdown_steps]), so they
    add no state of their own. *)
Inductive Action : Type :=
| Update
| Draw
| ClickStart
| ClickStop
| ClickClear
| ClickReset
| InputSteps (value : number)
| InputFramerate (value : number)
| InputDrawsPerFrame (value : number)
| InputStepSize (value : number)
| InputDirectionStepSize (value : number)
| InputResetOnChange (value : bool).

Definition perform (a : Action) (g : State) : State :=
  match a with
  | Update => update g
  | Draw => state_of (draw g)
  | ClickStart => on_Start g
  | ClickStop => on_Stop g
  | ClickClear => clear g
  | ClickReset => state_of (on_Reset g)
  | InputSteps v => on_Steps v g
  | InputFramerate v => on_Framerate v g
  | InputDrawsPerFrame v => on_drawsPerFrame v g
  | InputStepSize v => on_StepSize v g
  | InputDirectionStepSize v => on_DirectionStepSize v g
  | InputResetOnChange b => on_ResetOnChange b g
  end.

Definition run (acts : list Action) (g : State) : State :=
  fold_left (fun g a => perform a g) acts g.

(** The text typed into one of the two generator inputs parsed to a
    number. *)
Definition typed_number (a : Action) : Prop :=
  match a with
  | InputStepSize v | InputDirectionStepSize v => JsNum.is_num v
  | _ => True
  end.

(** Two points drawn after loading, then the "Reset on change" box ticked. *)
Definition flagged : State := on_ResetOnChange true (steps 2 loaded).

(** A short session at the controls. *)
Definition session : list Action :=
  [Update; ClickStart; ClickReset; InputStepSize (Num 5); InputFramerate NaN;
   Update; ClickClear; Draw].

(** The loaded script with -20 typed into "Step size". *)
Definition backwards : State := on_StepSize (Num (-20)) loaded.

(** ** Vocabulary of the properties *)

(** The walker and the point list as lines 36-43 bind them. *)
Definition fresh_walker (g : State) : Prop :=
  direction g = Num 0 /\ angleAddend g = Num 0 /\
  pointX g = Num 0 /\ pointY g = Num 0 /\ points g = [].

(** The four extent globals as one box. *)
Record Box : Type := mkBox {
  lo_x : number; hi_x : number; lo_y : number; hi_y : number
}.

Definition extent (g : State) : Box :=
  mkBox (minX g) (maxX g) (minY g) (maxY g).

(** Lines 116-119 on a box. *)
Definition enlarge (b : Box) (p : Point) : Box :=
  mkBox (Math.min (lo_x b) (x p)) (Math.max (hi_x b) (x p))
        (Math.min (lo_y b) (y p)) (Math.max (hi_y b) (y p)).

Definition hull (base : Box) (ps : list Point) : Box :=
  fold_left enlarge ps base.

Definition screen_box : Box :=
  mkBox (- screenWidth / Num 2)%js (screenWidth / Num 2)%js
        (- screenHeight / Num 2)%js (screenHeight / Num 2)%js.

Definition origin_box : Box := mkBox (Num 0) (Num 0) (Num 0) (Num 0).

(** Order on numbers; nothing is below or above [NaN]. *)
Definition at_most (a b : number) : Prop :=
  match a, b with
  | Num r, Num s => r <= s
  | _, _ => False
  end.

Definition inside (b : Box) (p : Point) : Prop :=
  at_most (lo_x b) (x p) /\ at_most (x p) (hi_x b) /\
  at_most (lo_y b) (y p) /\ at_most (y p) (hi_y b).





(** Euclidean distance of two points. *)
Definition distance (p q : Point) : number :=
  JsNum.lift1 sqrt
    ((x p - x q) * (x p - x q) + (y p - y q) * (y p - y q))%js.

(** Every point is [len] away from the one before it. *)
Definition evenly_spaced (len : number) (ps : list Point) : Prop :=
  forall k q p,
    nth_error ps k = Some q -> nth_error ps (S k) = Some p ->
    distance p q = len.

(** The walker stands on the last point of the list, if there is one. *)
Definition at_tip (g : State) : Prop :=
  forall k q,
    S k = List.length (points g) -> nth_error (points g) k = Some q ->
    q = mkPoint (pointX g) (pointY g).

(** The end-to-end scenario after three steps, as the specification
    expects it: headings 0, 10 and 30 degrees, and an extent that starts at
    the origin and reaches the third point. *)
Definition expected_scenario (g : State) : Prop :=
  exists p0 p1 p2,
    points g = [p0; p1; p2] /\
    p0 = mkPoint (Num 20) (Num 0) /\
    p1 = mkPoint
           (x p0 + Num 20 * Math.cos (Num 10 * Math.PI / Num 180))%js
           (y p0 + Num 20 * Math.sin (Num 10 * Math.PI / Num 180))%js /\
    p2 = mkPoint
           (x p1 + Num 20 * Math.cos (Num 30 * Math.PI / Num 180))%js
           (y p1 + Num 20 * Math.sin (Num 30 * Math.PI / Num 180))%js /\
    extent g = mkBox (Num 0) (x p2) (Num 0) (y p2).

(** The globals the generator computes with hold real numbers. *)
Definition real_valued (g : State) : Prop :=
  JsNum.is_num (stepSize g) /\ JsNum.is_num (angleStepSize g) /\
  JsNum.is_num (pointX g) /\ JsNum.is_num (pointY g) /\
  JsNum.is_num (direction g) /\ JsNum.is_num (angleAddend g).

(** Both coordinates of a point are real numbers. *)
Definition real_point (p : Point) : Prop :=
  JsNum.is_num (x p) /\ JsNum.is_num (y p).

(** A box of real numbers whose minima do not exceed its maxima. *)
Definition proper (b : Box) : Prop :=
  exists l r bt tp,
    b = mkBox (Num l) (Num r) (Num bt) (Num tp) /\ l <= r /\ bt <= tp.

(** What holds of the generator globals as long as every number typed into
    the controls parsed: they are real numbers, and the extent is the box it
    was last set to (the screen at load, the origin in [reset]) enlarged by
    every point of the list. *)
Definition sound (g : State) : Prop :=
  real_valued g /\
  Forall real_point (points g) /\
  (extent g = hull screen_box (points g) \/
   extent g = hull origin_box (points g)).

(** Two states that differ at most in the canvas log, the controller flags
    and the timing parameters. *)
Definition same_core (g g' : State) : Prop :=
  stepSize g' = stepSize g /\ angleStepSize g' = angleStepSize g /\
  pointX g' = pointX g /\ pointY g' = pointY g /\
  direction g' = direction g /\ angleAddend g' = angleAddend g /\
  extent g' = extent g /\ points g' = points g.

(** Number of paths stroked in a canvas log: one per completed [draw]. *)
Definition redraws (log : list CanvasCall) : nat :=
  List.length (filter (fun c => match c with stroke => true | _ => false end) log).

(** ** The timer, and vocabulary of the further properties *)

(** Lines 152-160 with the timer: the second component is the delay handed
    to [setTimeout] at line 159, read from [frameRate] after the redraw, and
    [None] when a throw keeps the handler from reaching that line. *)
Definition drawHandler_timer (fuel : nat) (g : State)
  : option (outcome * option number) :=
  match drawHandler fuel g with
  | None => None
  | Some (Normal g') => Some (Normal g', Some (Num 1000 / frameRate g')%js)
  | Some (Thrown e g') => Some (Thrown e g', None)
  end.

(** Number of calls in a canvas log that [f] selects. *)
Definition count_calls (f : CanvasCall -> bool) (log : list CanvasCall) : nat :=
  List.length (filter f log).

Definition is_lineTo (c : CanvasCall) : bool :=
  match c with lineTo _ _ => true | _ => false end.

Definition is_moveTo (c : CanvasCall) : bool :=
  match c with moveTo _ _ => true | _ => false end.

Definition is_save (c : CanvasCall) : bool :=
  match c with save => true | _ => false end.

Definition is_restore (c : CanvasCall) : bool :=
  match c with restore => true | _ => false end.

Definition is_Update (a : Action) : bool :=
  match a with Update => true | _ => false end.

Definition is_ClickReset (a : Action) : bool :=
  match a with ClickReset => true | _ => false end.

Definition is_toggle (a : Action) : bool :=
  match a with ClickStart | ClickStop => true | _ => false end.


(** The heading, in degrees, that [update] reads at its call number [k]
    (counted from 0) when it starts from heading 0 and increment 0. *)
Definition heading (d : R) (k : nat) : R := d * INR k * (INR k - 1) / 2.

(** * Properties *)

(** ** Numbers *)

Lemma div_num (a b : R) : b <> 0 -> (Num a / Num b)%js = Num (a / b).
Proof.
  intros Hb. unfold JsNum.div.
  destruct (Req_dec_T b 0) as [E | _]; [contradiction | reflexivity].
Qed.

Lemma neq_NaN (v : number) : (v != NaN)%js = true.
Proof. destruct v; reflexivity. Qed.

Lemma degrees (h : R) : (Num h * Math.PI / Num 180)%js = Num (h * PI / 180).
Proof. unfold Math.PI. cbn [JsNum.mul JsNum.lift2]. apply div_num. lra. Qed.

Lemma is_num_inv (v : number) : JsNum.is_num v -> exists r, v = Num r.
Proof. destruct v as [| r]; [intros [] | intros _; now exists r]. Qed.

Lemma half_screen : (screenWidth / Num 2)%js = Num 300.
Proof.
  unfold screenWidth. rewrite div_num by lra. f_equal. lra.
Qed.

Lemma minus_half_screen : (- screenWidth / Num 2)%js = Num (-300).
Proof.
  unfold screenWidth. cbn [JsNum.neg JsNum.lift1].
  rewrite div_num by lra. f_equal. lra.
Qed.

(** ** One call of [update], global by global *)

Lemma update_pointX g :
  pointX (update g)
  = (pointX g + Math.cos (direction g * Math.PI / Num 180) * stepSize g)%js.
Proof. reflexivity. Qed.

Lemma update_pointY g :
  pointY (update g)
  = (pointY g + Math.sin (direction g * Math.PI / Num 180) * stepSize g)%js.
Proof. reflexivity. Qed.

Lemma update_direction g :
  direction (update g) = (direction g + angleAddend g)%js.
Proof. reflexivity. Qed.

Lemma update_angleAddend g :
  angleAddend (update g) = (angleAddend g + angleStepSize g)%js.
Proof. reflexivity. Qed.

Lemma update_points g :
  points (update g)
  = points g ++ [mkPoint (pointX (update g)) (pointY (update g))].
Proof. reflexivity. Qed.

Lemma update_extent g :
  extent (update g)
  = enlarge (extent g) (mkPoint (pointX (update g)) (pointY (update g))).
Proof. reflexivity. Qed.

Lemma update_params g :
  stepSize (update g) = stepSize g /\
  angleStepSize (update g) = angleStepSize g /\
  running (update g) = running g /\
  ctx (update g) = ctx g.
Proof. repeat split. Qed.

(** On real-valued globals the step is the textbook turtle move. *)
Lemma update_real g px py h a s d :
  pointX g = Num px -> pointY g = Num py ->
  direction g = Num h -> angleAddend g = Num a ->
  stepSize g = Num s -> angleStepSize g = Num d ->
  pointX (update g) = Num (px + cos (h * PI / 180) * s) /\
  pointY (update g) = Num (py + sin (h * PI / 180) * s) /\
  direction (update g) = Num (h + a) /\
  angleAddend (update g) = Num (a + d).
Proof.
  intros Hx Hy Hh Ha Hs Hd.
  rewrite update_pointX, update_pointY, update_direction, update_angleAddend.
  rewrite Hx, Hy, Hh, Ha, Hs, Hd, degrees.
  repeat split.
Qed.

Lemma update_timing g :
  frameRate (update g) = frameRate g /\
  drawsPerFrame (update g) = drawsPerFrame g /\
  stepAmount (update g) = stepAmount g /\
  resetAfterChange (update g) = resetAfterChange g.
Proof. repeat split. Qed.

Lemma update_running g : running (update g) = running g.
Proof. reflexivity. Qed.

Lemma update_set_ctx l g : update (set_ctx l g) = set_ctx l (update g).
Proof. reflexivity. Qed.

(** From here on [update] is used through the equations above. *)
#[global] Opaque update.

Lemma steps_S n g : steps (S n) g = update (steps n g).
Proof. reflexivity. Qed.

Lemma steps_params n g :
  stepSize (steps n g) = stepSize g /\
  angleStepSize (steps n g) = angleStepSize g.
Proof.
  induction n as [| n [IHs IHd]]; [now split |].
  rewrite steps_S. destruct (update_params (steps n g)) as (Es & Ed & _).
  split; congruence.
Qed.

Lemma steps_update n g : steps n (update g) = update (steps n g).
Proof.
  induction n as [| n IH]; [reflexivity |]. now rewrite !steps_S, IH.
Qed.

Lemma steps_set_ctx n l g : steps n (set_ctx l g) = set_ctx l (steps n g).
Proof.
  induction n as [| n IH]; [reflexivity |].
  now rewrite !steps_S, IH, update_set_ctx.
Qed.

(** ** The loops of the timer and of the Step button *)

Lemma truthy_num r : JsNum.truthy (Num r) = true <-> r <> 0.
Proof.
  unfold JsNum.truthy. destruct (Req_dec_T r 0) as [E | E]; split;
    congruence.
Qed.

Lemma countdown_S fuel i g :
  countdown (S fuel) i g
  = if JsNum.truthy i then countdown fuel (i - Num 1)%js (update g)
    else Some g.
Proof. reflexivity. Qed.

(** A loop that ends has made some number of steps. *)
Lemma countdown_steps fuel i g g' :
  countdown fuel i g = Some g' -> exists n, g' = steps n g.
Proof.
  revert i g. induction fuel as [| fuel IH]; intros i g H; [discriminate H |].
  rewrite countdown_S in H. destruct (JsNum.truthy i).
  - destruct (IH _ _ H) as [n ->]. exists (S n).
    now rewrite steps_update, steps_S.
  - injection H as <-. now exists 0%nat.
Qed.

(** Started at the natural number [n] the loop ends after [n] steps. *)
Lemma countdown_count n g :
  countdown (S n) (Num (INR n)) g = Some (steps n g).
Proof.
  revert g. induction n as [| n IH]; intros g.
  - rewrite countdown_S. cbn [INR]. destruct (truthy_num 0) as [H _].
    destruct (JsNum.truthy (Num 0)); [now destruct H | reflexivity].
  - rewrite countdown_S. destruct (truthy_num (INR (S n))) as [_ H].
    rewrite H by apply not_0_INR, Nat.neq_succ_0.
    replace (Num (INR (S n)) - Num 1)%js with (Num (INR n))
      by (rewrite S_INR; cbn; f_equal; lra).
    now rewrite IH, steps_update, steps_S.
Qed.

(** The Step button with a count of 5: five steps, then one [draw]. *)
Lemma on_Step_five g :
  stepAmount g = Num 5 -> on_Step 6 g = Some (draw (steps 5 g)).
Proof.
  intros E. unfold on_Step. rewrite E.
  replace 5 with (INR 5) by (cbn; lra).
  now rewrite countdown_count.
Qed.

(** ** Drawing only writes to the canvas *)

Lemma set_ctx_set_ctx l l' g : set_ctx l (set_ctx l' g) = set_ctx l g.
Proof. reflexivity. Qed.

Lemma ctx_set_ctx l g : ctx (set_ctx l g) = l.
Proof. reflexivity. Qed.

Lemma points_set_ctx l g : points (set_ctx l g) = points g.
Proof. reflexivity. Qed.

Lemma running_set_ctx l g : running (set_ctx l g) = running g.
Proof. reflexivity. Qed.

Lemma pointX_set_ctx l g : pointX (set_ctx l g) = pointX g.
Proof. reflexivity. Qed.

Lemma pointY_set_ctx l g : pointY (set_ctx l g) = pointY g.
Proof. reflexivity. Qed.

Lemma direction_set_ctx l g : direction (set_ctx l g) = direction g.
Proof. reflexivity. Qed.

Lemma angleAddend_set_ctx l g : angleAddend (set_ctx l g) = angleAddend g.
Proof. reflexivity. Qed.

Lemma extent_set_ctx l g : extent (set_ctx l g) = extent g.
Proof. reflexivity. Qed.

Lemma stepSize_set_ctx l g : stepSize (set_ctx l g) = stepSize g.
Proof. reflexivity. Qed.

Lemma angleStepSize_set_ctx l g : angleStepSize (set_ctx l g) = angleStepSize g.
Proof. reflexivity. Qed.

Lemma frameRate_set_ctx l g : frameRate (set_ctx l g) = frameRate g.
Proof. reflexivity. Qed.

Lemma drawsPerFrame_set_ctx l g : drawsPerFrame (set_ctx l g) = drawsPerFrame g.
Proof. reflexivity. Qed.

Lemma stepAmount_set_ctx l g : stepAmount (set_ctx l g) = stepAmount g.
Proof. reflexivity. Qed.

Lemma resetAfterChange_set_ctx l g :
  resetAfterChange (set_ctx l g) = resetAfterChange g.
Proof. reflexivity. Qed.

(** Rewriting with [frame] drops a change of the canvas log under a
    projection. *)
Create Rewrite HintDb frame.
#[global] Hint Rewrite ctx_set_ctx points_set_ctx running_set_ctx
  pointX_set_ctx pointY_set_ctx direction_set_ctx angleAddend_set_ctx
  extent_set_ctx stepSize_set_ctx angleStepSize_set_ctx frameRate_set_ctx
  drawsPerFrame_set_ctx stepAmount_set_ctx resetAfterChange_set_ctx : frame.

Lemma set_ctx_same g : set_ctx (ctx g) g = g.
Proof. now destruct g. Qed.

Lemma draw_lines_log win ps g :
  draw_lines win ps g
  = set_ctx
      (ctx g ++ map (fun point =>
                       lineTo (x (transformPoint (x point) (y point) win))
                              (y (transformPoint (x point) (y point) win))) ps)
      g.
Proof.
  unfold draw_lines. revert g.
  induction ps as [| p ps IH]; intros g; cbn [fold_left map].
  - rewrite app_nil_r. symmetry. apply set_ctx_same.
  - rewrite IH. unfold call. cbn [ctx set_ctx].
    rewrite <- app_assoc. reflexivity.
Qed.

Lemma draw_empty g :
  points g = [] ->
  draw g
  = Thrown TypeError
      (set_ctx (ctx g ++ [set_fillStyle "black";
                          fillRect (Num 0) (Num 0) screenWidth screenHeight;
                          save;
                          translate (screenWidth / Num 2)%js
                                    (screenHeight / Num 2)%js;
                          set_strokeStyle "white";
                          beginPath]) g).
Proof.
  intros E. unfold draw, clear, call. cbn [points set_ctx ctx]. rewrite E.
  repeat rewrite <- app_assoc. reflexivity.
Qed.

Lemma draw_nonempty g first rest :
  points g = first :: rest ->
  draw g
  = Normal (set_ctx (ctx g ++ draw_log (getWindowData g) first (points g)) g).
Proof.
  intros E. destruct g; cbn in E; subst. unfold draw, clear, call.
  cbn [points set_ctx ctx]. rewrite draw_lines_log.
  unfold draw_log, getWindowData. cbn [points set_ctx ctx minX maxX minY maxY].
  repeat rewrite <- app_assoc. reflexivity.
Qed.

Lemma clear_log g :
  clear g
  = set_ctx (ctx g ++ [set_fillStyle "black";
                       fillRect (Num 0) (Num 0) screenWidth screenHeight]) g.
Proof.
  unfold clear, call. cbn [ctx set_ctx]. rewrite <- app_assoc. reflexivity.
Qed.

Lemma rewind_set_ctx l g : rewind (set_ctx l g) = set_ctx l (rewind g).
Proof. reflexivity. Qed.

Lemma getWindowData_set_ctx l g : getWindowData (set_ctx l g) = getWindowData g.
Proof. reflexivity. Qed.

Lemma reset_unfold g : reset g = draw (update (rewind (clear g))).
Proof. reflexivity. Qed.

Lemma reset_outcome g :
  let g1 := update (rewind g) in
  reset g
  = Normal
      (set_ctx
         (ctx g
          ++ [set_fillStyle "black";
              fillRect (Num 0) (Num 0) screenWidth screenHeight]
          ++ draw_log (getWindowData g1)
               (mkPoint (pointX g1) (pointY g1))
               [mkPoint (pointX g1) (pointY g1)])
         g1).
Proof.
  intros g1. rewrite reset_unfold, clear_log, rewind_set_ctx, update_set_ctx.
  fold g1.
  assert (Ep : points g1 = [mkPoint (pointX g1) (pointY g1)])
    by exact (update_points (rewind g)).
  rewrite (draw_nonempty _ (mkPoint (pointX g1) (pointY g1)) [])
    by (rewrite points_set_ctx; exact Ep).
  rewrite getWindowData_set_ctx, set_ctx_set_ctx, ctx_set_ctx, points_set_ctx.
  rewrite Ep, <- app_assoc. reflexivity.
Qed.

(** ** What [reset] leaves behind *)

Lemma cos_zero_degrees : cos (0 * PI / 180) = 1.
Proof. replace (0 * PI / 180) with 0 by lra. apply cos_0. Qed.

Lemma sin_zero_degrees : sin (0 * PI / 180) = 0.
Proof. replace (0 * PI / 180) with 0 by lra. apply sin_0. Qed.

(** The step that [reset] takes from the rewound globals. *)
Lemma first_step g s d :
  stepSize g = Num s -> angleStepSize g = Num d ->
  pointX (update (rewind g)) = Num s /\
  pointY (update (rewind g)) = Num 0 /\
  direction (update (rewind g)) = Num 0 /\
  angleAddend (update (rewind g)) = Num d /\
  points (update (rewind g)) = [mkPoint (Num s) (Num 0)].
Proof.
  intros Hs Hd.
  destruct (update_real (rewind g) 0 0 0 0 s d) as (Ex & Ey & Eh & Ea);
    try reflexivity; try assumption.
  rewrite cos_zero_degrees in Ex. rewrite sin_zero_degrees in Ey.
  replace (0 + 1 * s) with s in Ex by lra.
  replace (0 + 0 * s) with 0 in Ey by lra.
  replace (0 + 0) with 0 in Eh by lra.
  replace (0 + d) with d in Ea by lra.
  rewrite update_points, Ex, Ey. repeat split; assumption.
Qed.

Lemma redraws_app l l' : redraws (l ++ l') = (redraws l + redraws l')%nat.
Proof. unfold redraws. now rewrite filter_app, length_app. Qed.

Lemma redraws_draw_log win first ps : redraws (draw_log win first ps) = 1%nat.
Proof.
  unfold draw_log. rewrite !redraws_app.
  assert (E : redraws
                (map (fun point =>
                        lineTo (x (transformPoint (x point) (y point) win))
                               (y (transformPoint (x point) (y point) win)))
                     ps) = 0%nat).
  { unfold redraws. induction ps as [| p ps IH]; [reflexivity | exact IH]. }
  rewrite E. reflexivity.
Qed.

(** ** Claims about [reset] and the controls *)

(** C1, as amended.  [reset] never throws, and it leaves the walker one
    step past the origin: heading 0, heading increment equal to the
    configured [angleStepSize], position [(stepSize, 0)], and that position
    as the only point of the list. *)
Theorem reset_leaves_first_step g s d :
  stepSize g = Num s -> angleStepSize g = Num d ->
  exists g',
    reset g = Normal g' /\
    direction g' = Num 0 /\ angleAddend g' = Num d /\
    pointX g' = Num s /\ pointY g' = Num 0 /\
    points g' = [mkPoint (Num s) (Num 0)].
Proof.
  intros Hs Hd.
  destruct (first_step g s d Hs Hd) as (Ex & Ey & Eh & Ea & Ep).
  eexists. split; [apply reset_outcome |].
  autorewrite with frame.
  split; [exact Eh | split; [exact Ea | split; [exact Ex |]]].
  split; [exact Ey | exact Ep].
Qed.

Lemma reset_leaves_first_step_witness :
  exists g',
    reset loaded = Normal g' /\
    direction g' = Num 0 /\ angleAddend g' = Num 10 /\
    pointX g' = Num 20 /\ pointY g' = Num 0 /\
    points g' = [mkPoint (Num 20) (Num 0)].
Proof.
  apply (reset_leaves_first_step loaded 20 10); reflexivity.
Defined.

Lemma steps_length n g :
  List.length (points (steps n g)) = (List.length (points g) + n)%nat.
Proof.
  induction n as [| n IH]; [cbn; lia |].
  rewrite steps_S, update_points, length_app, IH. cbn. lia.
Qed.

Lemma reset_points g :
  points (state_of (reset g))
  = [mkPoint (pointX (update (rewind g))) (pointY (update (rewind g)))].
Proof.
  rewrite reset_outcome. cbn [state_of]. rewrite points_set_ctx.
  exact (update_points (rewind g)).
Qed.

(** C1 as the specification words it fails on the loaded script: after
    [reset] the walker is not the fresh one of lines 36-43. *)
Lemma reset_not_fresh : ~ fresh_walker (state_of (reset loaded)).
Proof.
  intros (_ & _ & _ & _ & Hp).
  rewrite reset_points in Hp. discriminate Hp.
Qed.

(** The step that [reset] takes from the rewound globals, whatever the
    two generator parameters hold: the walker moves to [(stepSize, 0)], or
    to [(NaN, NaN)] when [stepSize] is [NaN]. *)
Lemma first_step_any g :
  direction (update (rewind g)) = Num 0 /\
  angleAddend (update (rewind g)) = angleStepSize g /\
  pointX (update (rewind g)) = stepSize g /\
  pointY (update (rewind g)) = (Num 0 * stepSize g)%js /\
  extent (update (rewind g))
  = mkBox (Math.min (Num 0) (stepSize g)) (Math.max (Num 0) (stepSize g))
          (Num 0 * stepSize g)%js (Num 0 * stepSize g)%js.
Proof.
  assert (Ex : pointX (update (rewind g)) = stepSize g).
  { rewrite update_pointX. cbn [rewind pointX direction stepSize].
    rewrite degrees. destruct (stepSize g) as [| s]; [reflexivity |].
    cbn. rewrite cos_zero_degrees. f_equal. lra. }
  assert (Ey : pointY (update (rewind g)) = (Num 0 * stepSize g)%js).
  { rewrite update_pointY. cbn [rewind pointY direction stepSize].
    rewrite degrees. destruct (stepSize g) as [| s]; [reflexivity |].
    cbn. rewrite sin_zero_degrees. f_equal. lra. }
  split; [| split; [| split; [exact Ex | split; [exact Ey |]]]].
  - rewrite update_direction. cbn. f_equal. lra.
  - rewrite update_angleAddend. cbn [rewind angleAddend angleStepSize].
    destruct (angleStepSize g) as [| d]; [reflexivity |]. cbn. f_equal. lra.
  - rewrite update_extent, Ex, Ey. unfold enlarge.
    cbn [rewind extent lo_x hi_x lo_y hi_y x y minX maxX minY maxY].
    destruct (stepSize g) as [| s]; [reflexivity |]. cbn. f_equal.
    + f_equal. rewrite Rmin_left by lra. lra.
    + f_equal. rewrite Rmax_left by lra. lra.
Qed.

(** C7, as amended.  The Reset button leaves [running], and every
    parameter, as it was.  It rewinds the generator and takes one step: the
    heading is 0, the heading increment is [angleStepSize], the walker
    stands on [(stepSize, 0)], which is the only point of the list, and the
    extent is the box spanned by the origin and that point.  It redraws
    exactly once, and the scene it draws is that one point.  Below,
    [Num 0 * stepSize g] is 0, or [NaN] when [stepSize] is [NaN]. *)
Theorem reset_button g :
  exists g',
    on_Reset g = Normal g' /\
    running g' = running g /\
    (stepSize g' = stepSize g /\ angleStepSize g' = angleStepSize g /\
     frameRate g' = frameRate g /\ drawsPerFrame g' = drawsPerFrame g /\
     stepAmount g' = stepAmount g /\
     resetAfterChange g' = resetAfterChange g) /\
    (direction g' = Num 0 /\ angleAddend g' = angleStepSize g /\
     pointX g' = stepSize g /\ pointY g' = (Num 0 * stepSize g)%js) /\
    points g' = [mkPoint (pointX g') (pointY g')] /\
    extent g'
    = mkBox (Math.min (Num 0) (stepSize g)) (Math.max (Num 0) (stepSize g))
            (Num 0 * stepSize g)%js (Num 0 * stepSize g)%js /\
    redraws (ctx g') = S (redraws (ctx g)) /\
    ctx g'
    = ctx g
      ++ [set_fillStyle "black";
          fillRect (Num 0) (Num 0) screenWidth screenHeight]
      ++ draw_log (getWindowData g')
           (mkPoint (pointX g') (pointY g')) (points g').
Proof.
  destruct (first_step_any g) as (Eh & Ea & Ex & Ey & Ee).
  destruct (update_params (rewind g)) as (Es & Ed & _).
  destruct (update_timing (rewind g)) as (Ef & Edpf & Esa & Erac).
  eexists. split; [apply reset_outcome |].
  rewrite getWindowData_set_ctx. autorewrite with frame.
  split; [rewrite update_running; reflexivity |].
  split; [rewrite Es, Ed, Ef, Edpf, Esa, Erac; repeat split |].
  split; [rewrite Eh, Ea, Ex, Ey; repeat split |].
  split; [exact (update_points (rewind g)) |].
  split; [exact Ee |].
  split.
  - rewrite !redraws_app, redraws_draw_log.
    change (redraws [_; _]) with 0%nat. lia.
  - now rewrite (update_points (rewind g)).
Qed.

(** C7 as the specification words it fails when the script is running:
    the Reset button does not stop it, and the scene drawn is not empty. *)
Lemma reset_button_keeps_running :
  running (state_of (on_Reset (on_Start loaded))) = true /\
  points (state_of (on_Reset (on_Start loaded))) <> [].
Proof.
  unfold on_Reset. split.
  - rewrite reset_outcome. cbn [state_of]. rewrite running_set_ctx.
    rewrite update_running. reflexivity.
  - rewrite reset_points. discriminate.
Qed.

(** C10.  [draw] throws exactly when the point list is empty, and [reset]
    is [draw] after one [update] of the rewound globals, so its [draw] finds
    one point and returns. *)
Theorem draw_needs_a_point g :
  (points g = [] <-> exists g', draw g = Thrown TypeError g') /\
  (points g <> [] <-> exists g', draw g = Normal g') /\
  reset g = draw (update (rewind (clear g))) /\
  List.length (points (update (rewind (clear g)))) = 1%nat /\
  exists g', reset g = Normal g' /\ List.length (points g') = 1%nat.
Proof.
  assert (D : forall h, (points h = [] -> exists h', draw h = Thrown TypeError h')
                     /\ (points h <> [] -> exists h', draw h = Normal h')).
  { intros h. destruct (points h) as [| p ps] eqn:E; split; intros H.
    - eexists. now apply draw_empty.
    - now contradiction H.
    - discriminate H.
    - eexists. now apply (draw_nonempty h p ps). }
  split; [| split; [| split; [| split]]].
  - split; [apply D |]. intros [g' E].
    destruct (points g) as [| p ps] eqn:Ep; [reflexivity |].
    rewrite (draw_nonempty g p ps Ep) in E. discriminate E.
  - split; [apply D |]. intros [g' E] Ep.
    rewrite (draw_empty g Ep) in E. discriminate E.
  - apply reset_unfold.
  - rewrite update_points. reflexivity.
  - eexists. split; [apply reset_outcome |].
    rewrite points_set_ctx, update_points. reflexivity.
Qed.

Lemma on_ResetOnChange_frame b g :
  resetAfterChange (on_ResetOnChange b g) = b /\
  points (on_ResetOnChange b g) = points g.
Proof. split; reflexivity. Qed.

Lemma setters_frame v g :
  points (on_StepSize v g) = points g /\
  points (on_DirectionStepSize v g) = points g /\
  points (on_Framerate v g) = points g /\
  points (on_drawsPerFrame v g) = points g.
Proof.
  unfold on_StepSize, on_DirectionStepSize, on_Framerate, on_drawsPerFrame.
  rewrite neq_NaN. repeat split.
Qed.

(** C2, where the script departs from the claim.  With the
    reset-on-change flag set and two points drawn, none of the four
    parameter callbacks touches the point list, although [reset] would cut
    it down to one point: [tryClear] is never called by them. *)
Theorem setters_ignore_reset_flag :
  resetAfterChange flagged = true /\
  (forall v,
      points (on_StepSize v flagged) = points flagged /\
      points (on_DirectionStepSize v flagged) = points flagged /\
      points (on_Framerate v flagged) = points flagged /\
      points (on_drawsPerFrame v flagged) = points flagged) /\
  List.length (points flagged) = 2%nat /\
  List.length (points (state_of (tryClear flagged))) = 1%nat.
Proof.
  destruct (on_ResetOnChange_frame true (steps 2 loaded)) as [Ef Ep].
  fold flagged in Ef, Ep.
  split; [exact Ef |]. split; [| split].
  - intros v. destruct (setters_frame v flagged) as (E1 & E2 & E3 & E4).
    split; [exact E1 | split; [exact E2 | split; [exact E3 | exact E4]]].
  - rewrite Ep, steps_length. reflexivity.
  - unfold tryClear. rewrite Ef, reset_points. reflexivity.
Qed.

(** C3, where the script departs from the claim.  The guard
    [value != NaN] of every number callback is true for every [value], so
    a text that does not parse is stored as [NaN]. *)
Theorem setters_store_NaN g :
  stepSize (on_StepSize NaN g) = NaN /\
  angleStepSize (on_DirectionStepSize NaN g) = NaN /\
  frameRate (on_Framerate NaN g) = NaN /\
  drawsPerFrame (on_drawsPerFrame NaN g) = NaN /\
  stepAmount (on_Steps NaN g) = NaN.
Proof. repeat split. Qed.

(** ** The heading compounds *)

Lemma steps_heading g d k :
  direction g = Num 0 -> angleAddend g = Num 0 -> angleStepSize g = Num d ->
  direction (steps k g) = Num (d * INR k * (INR k - 1) / 2) /\
  angleAddend (steps k g) = Num (d * INR k).
Proof.
  intros Hh Ha Hd. induction k as [| k [IHh IHa]].
  - change (steps 0 g) with g. rewrite Hh, Ha. cbn [INR].
    split; f_equal; lra.
  - rewrite steps_S, update_direction, update_angleAddend, IHh, IHa.
    rewrite (proj2 (steps_params k g)), Hd, S_INR.
    cbn [JsNum.add JsNum.lift2]. split; f_equal; field.
Qed.

Lemma steps_point g k :
  nth_error (points (steps (S k) g)) (List.length (points g) + k)
  = Some (mkPoint (pointX (steps (S k) g)) (pointY (steps (S k) g))).
Proof.
  rewrite steps_S, update_points, nth_error_app2;
    rewrite steps_length; [| lia].
  rewrite Nat.sub_diag. reflexivity.
Qed.

Lemma steps_after_reset n g :
  points (steps n (state_of (reset g))) = points (steps (S n) (rewind g)).
Proof.
  rewrite reset_outcome. cbn [state_of].
  now rewrite steps_set_ctx, points_set_ctx, steps_update, steps_S.
Qed.

Lemma heading_point g d k :
  direction g = Num 0 -> angleAddend g = Num 0 -> angleStepSize g = Num d ->
  nth_error (points (steps (S k) g)) (List.length (points g) + k)
  = Some (mkPoint
            (pointX (steps k g)
             + Math.cos (Num (d * INR k * (INR k - 1) / 2)
                         * Math.PI / Num 180)
               * stepSize g)%js
            (pointY (steps k g)
             + Math.sin (Num (d * INR k * (INR k - 1) / 2)
                         * Math.PI / Num 180)
               * stepSize g)%js).
Proof.
  intros Hh Ha Hd.
  destruct (steps_heading g d k Hh Ha Hd) as [Eh _].
  rewrite steps_point, steps_S, update_pointX, update_pointY, Eh.
  rewrite (proj1 (steps_params k g)). reflexivity.
Qed.

(** C5.  From heading 0 and heading increment 0, with increment delta [d],
    the heading in force after [k] steps is exactly [d * k * (k - 1) / 2]
    (no reduction modulo 360 is ever applied), and the point with index [k]
    among those appended is the position after [k] steps moved by
    [stepSize] along that heading.  The same holds for the point with index
    [k] of the list that [reset] starts, its own step giving point 0. *)
Theorem heading_of_point g d k :
  angleStepSize g = Num d ->
  (direction g = Num 0 -> angleAddend g = Num 0 ->
   direction (steps k g) = Num (d * INR k * (INR k - 1) / 2) /\
   nth_error (points (steps (S k) g)) (List.length (points g) + k)
   = Some (mkPoint
             (pointX (steps k g)
              + Math.cos (Num (d * INR k * (INR k - 1) / 2)
                          * Math.PI / Num 180)
                * stepSize g)%js
             (pointY (steps k g)
              + Math.sin (Num (d * INR k * (INR k - 1) / 2)
                          * Math.PI / Num 180)
                * stepSize g)%js)) /\
  nth_error (points (steps k (state_of (reset g)))) k
  = Some (mkPoint
            (pointX (steps k (rewind g))
             + Math.cos (Num (d * INR k * (INR k - 1) / 2)
                         * Math.PI / Num 180)
               * stepSize g)%js
            (pointY (steps k (rewind g))
             + Math.sin (Num (d * INR k * (INR k - 1) / 2)
                         * Math.PI / Num 180)
               * stepSize g)%js).
Proof.
  intros Hd. split.
  - intros Hh Ha. split; [apply (steps_heading g d k Hh Ha Hd) |].
    now apply heading_point.
  - rewrite steps_after_reset.
    exact (heading_point (rewind g) d k eq_refl eq_refl Hd).
Qed.

Lemma heading_of_point_witness :
  (direction (steps 2 loaded) = Num (10 * INR 2 * (INR 2 - 1) / 2) /\
   nth_error (points (steps (S 2) loaded)) (List.length (points loaded) + 2)
   = Some (mkPoint
             (pointX (steps 2 loaded)
              + Math.cos (Num (10 * INR 2 * (INR 2 - 1) / 2)
                          * Math.PI / Num 180)
                * stepSize loaded)%js
             (pointY (steps 2 loaded)
              + Math.sin (Num (10 * INR 2 * (INR 2 - 1) / 2)
                          * Math.PI / Num 180)
                * stepSize loaded)%js)) /\
  nth_error (points (steps 2 (state_of (reset loaded)))) 2
  = Some (mkPoint
            (pointX (steps 2 (rewind loaded))
             + Math.cos (Num (10 * INR 2 * (INR 2 - 1) / 2)
                         * Math.PI / Num 180)
               * stepSize loaded)%js
            (pointY (steps 2 (rewind loaded))
             + Math.sin (Num (10 * INR 2 * (INR 2 - 1) / 2)
                         * Math.PI / Num 180)
               * stepSize loaded)%js).
Proof.
  destruct (heading_of_point loaded 10 2 eq_refl) as [Hfresh Hreset].
  split; [apply Hfresh; reflexivity | exact Hreset].
Defined.

(** ** The viewport transform *)

Lemma screen_side : Math.max screenWidth screenHeight = Num 600.
Proof.
  unfold screenWidth, screenHeight. cbn [Math.max JsNum.lift2].
  f_equal. apply Rmax_left. lra.
Qed.

Lemma divisor_of_box g a b c d :
  minX g = Num a -> maxX g = Num b -> minY g = Num c -> maxY g = Num d ->
  a <= b -> c <= d ->
  denominator (getWindowData g) = Num (Rmax (b - a) (d - c) + 10) /\
  10 <= Rmax (b - a) (d - c) + 10.
Proof.
  intros Ea Eb Ec Ed Hab Hcd. split.
  - unfold denominator, getWindowData. cbn [maxSize].
    rewrite Ea, Eb, Ec, Ed. reflexivity.
  - pose proof (Rmax_l (b - a) (d - c)). lra.
Qed.

(** C8.  For an extent whose minima do not exceed its maxima, the
    degenerate one included, the divisor of [transformPoint] is
    [maxSize + 10], at least 10 and so strictly positive, and both
    transformed coordinates are real numbers: the centred coordinate
    scaled by [600 / (maxSize + 10)]. *)
Theorem transform_divisor_positive g a b c d :
  minX g = Num a -> maxX g = Num b -> minY g = Num c -> maxY g = Num d ->
  a <= b -> c <= d ->
  exists den,
    denominator (getWindowData g) = Num den /\
    den = Rmax (b - a) (d - c) + 10 /\
    0 < den /\
    forall px py,
      transformPoint (Num px) (Num py) (getWindowData g)
      = mkPoint (Num ((px - (a + b) / 2) / den * 600))
                (Num ((py - (c + d) / 2) / den * 600)).
Proof.
  intros Ea Eb Ec Ed Hab Hcd.
  destruct (divisor_of_box g a b c d Ea Eb Ec Ed Hab Hcd) as [Eden Hden].
  exists (Rmax (b - a) (d - c) + 10).
  split; [exact Eden |]. split; [reflexivity |]. split; [lra |].
  intros px py. unfold transformPoint. rewrite Eden, screen_side.
  unfold getWindowData. cbn [centerX centerY]. rewrite Ea, Eb, Ec, Ed.
  cbn [JsNum.add JsNum.sub JsNum.lift2].
  rewrite !div_num by lra. reflexivity.
Qed.

Lemma transform_divisor_positive_witness :
  exists den,
    denominator (getWindowData (rewind loaded)) = Num den /\
    den = Rmax (0 - 0) (0 - 0) + 10 /\
    0 < den /\
    forall px py,
      transformPoint (Num px) (Num py) (getWindowData (rewind loaded))
      = mkPoint (Num ((px - (0 + 0) / 2) / den * 600))
                (Num ((py - (0 + 0) / 2) / den * 600)).
Proof.
  apply (transform_divisor_positive (rewind loaded) 0 0 0 0);
    try reflexivity; lra.
Defined.

(** ** The bounding extent *)

Lemma screen_box_eq :
  screen_box = mkBox (Num (-300)) (Num 300) (Num (-300)) (Num 300).
Proof.
  unfold screen_box, screenHeight. fold screenWidth.
  now rewrite minus_half_screen, half_screen.
Qed.

Lemma proper_screen_box : proper screen_box.
Proof.
  exists (-300), 300, (-300), 300. split; [apply screen_box_eq | lra].
Qed.

Lemma proper_origin_box : proper origin_box.
Proof. exists 0, 0, 0, 0. repeat split; lra. Qed.

Lemma real_point_inv p :
  real_point p -> exists a b, p = mkPoint (Num a) (Num b).
Proof.
  destruct p as [[| a] [| b]]; intros [Hx Hy]; try contradiction.
  now exists a, b.
Qed.

(** *** Enlarging a proper box by a real point *)

Section Enlarge.

Variables (l r bt tp a c : R).
Hypotheses (Hlr : l <= r) (Hbt : bt <= tp).

Local Abbreviation b := (mkBox (Num l) (Num r) (Num bt) (Num tp)).
Local Abbreviation p := (mkPoint (Num a) (Num c)).

Ltac min_max_facts :=
  pose proof (Rmin_l l a); pose proof (Rmin_r l a);
  pose proof (Rmax_l r a); pose proof (Rmax_r r a);
  pose proof (Rmin_l bt c); pose proof (Rmin_r bt c);
  pose proof (Rmax_l tp c); pose proof (Rmax_r tp c).

Lemma enlarge_real_proper : proper (enlarge b p).
Proof.
  exists (Rmin l a), (Rmax r a), (Rmin bt c), (Rmax tp c).
  split; [reflexivity |]. min_max_facts. lra.
Qed.


Lemma enlarge_real_inside_new : inside (enlarge b p) p.
Proof. unfold inside, at_most. cbn. min_max_facts. lra. Qed.

Lemma enlarge_real_inside_old q : inside b q -> inside (enlarge b p) q.
Proof.
  destruct q as [[| u] [| v]]; unfold inside, at_most; cbn; try tauto.
  min_max_facts. lra.
Qed.

End Enlarge.

Ltac real_box_and_point Hb Hp :=
  let l := fresh "l" in
  let r := fresh "r" in
  let bt := fresh "bt" in
  let tp := fresh "tp" in
  let a := fresh "a" in
  let c := fresh "c" in
  let Hlr := fresh "Hlr" in
  let Hbt := fresh "Hbt" in
  destruct Hb as (l & r & bt & tp & -> & Hlr & Hbt);
  destruct (real_point_inv _ Hp) as (a & c & ->).

Lemma enlarge_proper b p : proper b -> real_point p -> proper (enlarge b p).
Proof. intros Hb Hp. real_box_and_point Hb Hp. now apply enlarge_real_proper. Qed.


Lemma enlarge_inside_new b p :
  proper b -> real_point p -> inside (enlarge b p) p.
Proof.
  intros Hb Hp. real_box_and_point Hb Hp. now apply enlarge_real_inside_new.
Qed.

Lemma enlarge_inside_old b p q :
  proper b -> real_point p -> inside b q -> inside (enlarge b p) q.
Proof.
  intros Hb Hp. real_box_and_point Hb Hp. now apply enlarge_real_inside_old.
Qed.

Lemma hull_snoc base ps p : hull base (ps ++ [p]) = enlarge (hull base ps) p.
Proof. unfold hull. now rewrite fold_left_app. Qed.

Lemma hull_encloses base ps :
  proper base -> Forall real_point ps ->
  proper (hull base ps) /\ forall p, In p ps -> inside (hull base ps) p.
Proof.
  intros Hb. induction ps as [| q ps IH] using rev_ind; intros Hps.
  - split; [exact Hb | intros p []].
  - apply Forall_app in Hps. destruct Hps as [Hps Hq].
    apply Forall_inv in Hq. destruct (IH Hps) as [Hproper Hin].
    rewrite hull_snoc. split; [now apply enlarge_proper |].
    intros p Hp. apply in_app_or in Hp. destruct Hp as [Hp | [<- | []]].
    + apply enlarge_inside_old; auto.
    + now apply enlarge_inside_new.
Qed.

Lemma sound_encloses g :
  sound g ->
  proper (extent g) /\ forall p, In p (points g) -> inside (extent g) p.
Proof.
  intros (_ & Hps & [E | E]); rewrite E; apply hull_encloses;
    auto using proper_screen_box, proper_origin_box.
Qed.

Lemma real_valued_inv g :
  real_valued g ->
  exists s d px py h a,
    stepSize g = Num s /\ angleStepSize g = Num d /\
    pointX g = Num px /\ pointY g = Num py /\
    direction g = Num h /\ angleAddend g = Num a.
Proof.
  intros (Hs & Hd & Hx & Hy & Hh & Ha).
  destruct (is_num_inv _ Hs) as [s Es]. destruct (is_num_inv _ Hd) as [d Ed].
  destruct (is_num_inv _ Hx) as [px Ex]. destruct (is_num_inv _ Hy) as [py Ey].
  destruct (is_num_inv _ Hh) as [h Eh]. destruct (is_num_inv _ Ha) as [a Ea].
  now exists s, d, px, py, h, a.
Qed.

Lemma update_real_point g :
  real_valued g ->
  real_valued (update g) /\
  real_point (mkPoint (pointX (update g)) (pointY (update g))).
Proof.
  intros Hreal.
  destruct (real_valued_inv g Hreal)
    as (s & d & px & py & h & a & Es & Ed & Ex & Ey & Eh & Ea).
  destruct (update_real g px py h a s d Ex Ey Eh Ea Es Ed) as (Fx & Fy & Fh & Fa).
  destruct (update_params g) as (Fs & Fd & _).
  unfold real_valued, real_point. cbn [x y].
  rewrite Fx, Fy, Fh, Fa, Fs, Fd, Es, Ed. cbn. tauto.
Qed.

Lemma sound_update g : sound g -> sound (update g).
Proof.
  intros (Hreal & Hps & Hext).
  destruct (update_real_point g Hreal) as [Hreal' Hp].
  split; [exact Hreal' |]. rewrite update_points, update_extent. split.
  - apply Forall_app. split; [exact Hps | now constructor].
  - rewrite !hull_snoc. destruct Hext as [-> | ->]; [now left | now right].
Qed.

Lemma sound_frame g g' : same_core g g' -> sound g -> sound g'.
Proof.
  intros (Es & Ed & Ex & Ey & Eh & Ea & Ee & Ep).
  unfold sound, real_valued.
  rewrite Es, Ed, Ex, Ey, Eh, Ea, Ee, Ep. tauto.
Qed.

Lemma sound_rewind g :
  JsNum.is_num (stepSize g) -> JsNum.is_num (angleStepSize g) ->
  sound (rewind g).
Proof.
  intros Hs Hd. split; [| split].
  - unfold real_valued. cbn. tauto.
  - constructor.
  - right. reflexivity.
Qed.

Lemma draw_frame g : exists log, state_of (draw g) = set_ctx log g.
Proof.
  destruct (points g) as [| p ps] eqn:E.
  - rewrite (draw_empty g E). eexists. reflexivity.
  - rewrite (draw_nonempty g p ps E). eexists. reflexivity.
Qed.

Lemma same_core_set_ctx l g : same_core g (set_ctx l g).
Proof. repeat split. Qed.

Lemma sound_reset g : sound g -> sound (state_of (reset g)).
Proof.
  intros ((Hs & Hd & _) & _). rewrite reset_outcome. cbn [state_of].
  apply (sound_frame (update (rewind g))); [apply same_core_set_ctx |].
  apply sound_update, sound_rewind; assumption.
Qed.

Lemma sound_perform a g : typed_number a -> sound g -> sound (perform a g).
Proof.
  intros Ha Hg.
  destruct a as [| | | | | | v | v | v | v | v | b]; cbn [perform].
  - now apply sound_update.
  - destruct (draw_frame g) as [log ->].
    apply (sound_frame g); [apply same_core_set_ctx | exact Hg].
  - apply (sound_frame g); [repeat split | exact Hg].
  - apply (sound_frame g); [repeat split | exact Hg].
  - rewrite clear_log.
    apply (sound_frame g); [apply same_core_set_ctx | exact Hg].
  - now apply sound_reset.
  - unfold on_Steps. rewrite neq_NaN.
    apply (sound_frame g); [repeat split | exact Hg].
  - unfold on_Framerate. rewrite neq_NaN.
    apply (sound_frame g); [repeat split | exact Hg].
  - unfold on_drawsPerFrame. rewrite neq_NaN.
    apply (sound_frame g); [repeat split | exact Hg].
  - unfold on_StepSize. rewrite neq_NaN.
    destruct Hg as ((Hs & Hrest) & Hps & Hext).
    split; [| split]; [split | |]; assumption.
  - unfold on_DirectionStepSize. rewrite neq_NaN.
    destruct Hg as ((Hs & Hd & Hrest) & Hps & Hext).
    split; [| split]; [split; [| split] | |]; assumption.
  - apply (sound_frame g); [repeat split | exact Hg].
Qed.

Lemma sound_run acts g :
  Forall typed_number acts -> sound g -> sound (run acts g).
Proof.
  intros Hacts. revert g.
  induction Hacts as [| a acts Ha _ IH]; intros g Hg; [exact Hg |].
  cbn [run fold_left]. apply IH. now apply sound_perform.
Qed.

Lemma sound_loaded : sound loaded.
Proof.
  split; [| split].
  - unfold real_valued. cbn. tauto.
  - constructor.
  - left. reflexivity.
Qed.

(** The divisor stays at 10 or more along every run whose generator inputs
    parsed. *)
Lemma reachable_divisor acts :
  Forall typed_number acts ->
  exists den,
    denominator (getWindowData (run acts loaded)) = Num den /\ 10 <= den.
Proof.
  intros Hacts.
  destruct (sound_encloses _ (sound_run acts loaded Hacts sound_loaded))
    as [(l & r & bt & tp & E & Hlr & Hbt) _].
  injection E as El Er Eb Et.
  eexists. exact (divisor_of_box _ l r bt tp El Er Eb Et Hlr Hbt).
Qed.






(** ** Length of the steps *)

Lemma distance_step px py theta s :
  distance (mkPoint (Num (px + cos theta * s)) (Num (py + sin theta * s)))
           (mkPoint (Num px) (Num py))
  = Num (Rabs s).
Proof.
  unfold distance. cbn. f_equal. rewrite <- sqrt_Rsqr_abs. f_equal.
  replace ((px + cos theta * s - px) * (px + cos theta * s - px)
           + (py + sin theta * s - py) * (py + sin theta * s - py))
    with (Rsqr s * (Rsqr (sin theta) + Rsqr (cos theta)))
    by (unfold Rsqr; ring).
  rewrite sin2_cos2. ring.
Qed.

Lemma spaced_update g s :
  real_valued g -> stepSize g = Num s -> at_tip g ->
  evenly_spaced (Num (Rabs s)) (points g) ->
  at_tip (update g) /\ evenly_spaced (Num (Rabs s)) (points (update g)).
Proof.
  intros Hreal Es Htip Hsp.
  destruct (real_valued_inv g Hreal)
    as (s' & d & px & py & h & a & Es' & Ed & Ex & Ey & Eh & Ea).
  destruct (update_real g px py h a s d Ex Ey Eh Ea Es Ed) as (Fx & Fy & _).
  unfold at_tip, evenly_spaced. rewrite update_points, Fx, Fy. split.
  - intros k q Hk Hq. rewrite length_app in Hk. cbn in Hk.
    rewrite nth_error_app2 in Hq by lia.
    replace (k - List.length (points g))%nat with 0%nat in Hq by lia.
    now injection Hq as <-.
  - intros k q p Hq Hp.
    destruct (Nat.lt_trichotomy (S k) (List.length (points g)))
      as [Hlt | [Heq | Hgt]].
    + rewrite nth_error_app1 in Hq, Hp by lia. exact (Hsp k q p Hq Hp).
    + rewrite nth_error_app1 in Hq by lia.
      rewrite nth_error_app2 in Hp by lia.
      replace (S k - List.length (points g))%nat with 0%nat in Hp by lia.
      injection Hp as <-.
      rewrite (Htip k q Heq Hq), Ex, Ey. apply distance_step.
    + rewrite nth_error_app2 in Hp by lia.
      destruct (S k - List.length (points g))%nat as [| [| m]] eqn:E;
        [lia | discriminate Hp | discriminate Hp].
Qed.

Lemma spaced_steps g s n :
  real_valued g -> stepSize g = Num s -> points g = [] ->
  List.length (points (steps n g)) = n /\
  evenly_spaced (Num (Rabs s)) (points (steps n g)).
Proof.
  intros Hreal Es Ep. split; [rewrite steps_length, Ep; reflexivity |].
  assert (H : real_valued (steps n g) /\ at_tip (steps n g) /\
              evenly_spaced (Num (Rabs s)) (points (steps n g))).
  { induction n as [| n (IHr & IHt & IHs)].
    - change (steps 0 g) with g. split; [exact Hreal |].
      unfold at_tip, evenly_spaced. rewrite Ep. split.
      + intros k q Hk. discriminate Hk.
      + intros [| k] q p Hq; discriminate Hq.
    - rewrite steps_S. split; [apply update_real_point, IHr |].
      apply spaced_update; try assumption.
      now rewrite (proj1 (steps_params n g)). }
  apply H.
Qed.

Lemma spaced_after_reset g s n :
  JsNum.is_num (angleStepSize g) -> stepSize g = Num s ->
  List.length (points (steps n (state_of (reset g)))) = S n /\
  evenly_spaced (Num (Rabs s)) (points (steps n (state_of (reset g)))).
Proof.
  intros Hd Es. rewrite steps_after_reset.
  apply spaced_steps; [| exact Es | reflexivity].
  unfold real_valued. cbn. rewrite Es. cbn. tauto.
Qed.

(** C9, as amended.  With real-valued globals and [stepSize = s], [n]
    steps from an empty point list give [n] points, [n] steps after a
    [reset] give [n + 1] (the first is the one [reset] appends), and in
    both lists every point is at distance [|s|] from the one before it.
    The two lengths are exact for the script as it runs; the distance is
    [|s|] in the exact arithmetic of this model, which the doubles of the
    script follow up to rounding. *)
Theorem step_lengths g s n :
  real_valued g -> stepSize g = Num s ->
  (points g = [] ->
   List.length (points (steps n g)) = n /\
   evenly_spaced (Num (Rabs s)) (points (steps n g))) /\
  List.length (points (steps n (state_of (reset g)))) = S n /\
  evenly_spaced (Num (Rabs s)) (points (steps n (state_of (reset g)))).
Proof.
  intros Hreal Es. split.
  - intros Ep. now apply spaced_steps.
  - apply spaced_after_reset; [apply Hreal | exact Es].
Qed.

Lemma real_valued_loaded : real_valued loaded.
Proof. apply sound_loaded. Qed.

Lemma step_lengths_witness :
  (List.length (points (steps 3 loaded)) = 3%nat /\
   evenly_spaced (Num (Rabs 20)) (points (steps 3 loaded))) /\
  List.length (points (steps 3 (state_of (reset loaded)))) = 4%nat /\
  evenly_spaced (Num (Rabs 20)) (points (steps 3 (state_of (reset loaded)))).
Proof.
  destruct (step_lengths loaded 20 3 real_valued_loaded eq_refl)
    as [Hfresh Hreset].
  split; [apply Hfresh; reflexivity | exact Hreset].
Defined.

(** C9 as the specification words it fails twice: right after [reset] the
    list already has one point, and with a negative step size the distance
    between consecutive points is not the step size. *)
Lemma step_lengths_not_as_claimed :
  List.length (points (steps 0 (state_of (reset loaded)))) <> 0%nat /\
  ~ evenly_spaced (stepSize backwards) (points (steps 2 backwards)).
Proof.
  split.
  - rewrite (proj1 (spaced_after_reset loaded 20 0 I eq_refl)). discriminate.
  - assert (Hreal : real_valued backwards).
    { unfold real_valued. cbn. tauto. }
    destruct (spaced_steps backwards (-20) 2 Hreal eq_refl eq_refl)
      as [Hlen Hsp].
    change (stepSize backwards) with (Num (-20)). intros Hclaim.
    destruct (nth_error (points (steps 2 backwards)) 0) as [q |] eqn:E0;
      [| apply nth_error_None in E0; lia].
    destruct (nth_error (points (steps 2 backwards)) 1) as [p |] eqn:E1;
      [| apply nth_error_None in E1; lia].
    pose proof (Hsp 0%nat q p E0 E1) as H1.
    pose proof (Hclaim 0%nat q p E0 E1) as H2.
    rewrite H1 in H2. injection H2 as H2.
    pose proof (Rabs_pos (-20)). lra.
Qed.

(** ** Three steps after loading *)

Lemma update_to g px py h a s d px' py' h' a' :
  pointX g = Num px -> pointY g = Num py ->
  direction g = Num h -> angleAddend g = Num a ->
  stepSize g = Num s -> angleStepSize g = Num d ->
  px' = px + cos (h * PI / 180) * s -> py' = py + sin (h * PI / 180) * s ->
  h' = h + a -> a' = a + d ->
  pointX (update g) = Num px' /\ pointY (update g) = Num py' /\
  direction (update g) = Num h' /\ angleAddend (update g) = Num a'.
Proof.
  intros Ex Ey Eh Ea Es Ed -> -> -> ->. now apply update_real.
Qed.

Lemma enlarge_absorb l r bt tp a c :
  l <= a <= r -> bt <= c <= tp ->
  enlarge (mkBox (Num l) (Num r) (Num bt) (Num tp)) (mkPoint (Num a) (Num c))
  = mkBox (Num l) (Num r) (Num bt) (Num tp).
Proof.
  intros [Hl Hr] [Hb Ht]. unfold enlarge. cbn.
  now rewrite !Rmin_left, !Rmax_left by assumption.
Qed.

Lemma ten_degrees : 0 < 10 * PI / 180 < PI.
Proof. pose proof PI_RGT_0. lra. Qed.

(** The walker after one, two and three steps from the loaded script. *)
Lemma three_steps_walker :
  (pointX (steps 1 loaded) = Num 20 /\ pointY (steps 1 loaded) = Num 0) /\
  (pointX (steps 2 loaded) = Num 40 /\ pointY (steps 2 loaded) = Num 0) /\
  (pointX (steps 3 loaded) = Num (40 + 20 * cos (10 * PI / 180)) /\
   pointY (steps 3 loaded) = Num (20 * sin (10 * PI / 180))).
Proof.
  destruct (steps_params 1 loaded) as [Es1 Ed1].
  destruct (steps_params 2 loaded) as [Es2 Ed2].
  destruct (update_to loaded 0 0 0 0 20 10 20 0 0 10)
    as (Ex1 & Ey1 & Eh1 & Ea1); try reflexivity;
    rewrite ?cos_zero_degrees, ?sin_zero_degrees; try lra.
  change (update loaded) with (steps 1 loaded) in Ex1, Ey1, Eh1, Ea1.
  destruct (update_to (steps 1 loaded) 20 0 0 10 20 10 40 0 10 20)
    as (Ex2 & Ey2 & Eh2 & Ea2); try assumption;
    rewrite ?cos_zero_degrees, ?sin_zero_degrees; try lra.
  change (update (steps 1 loaded)) with (steps 2 loaded) in Ex2, Ey2, Eh2, Ea2.
  destruct (update_to (steps 2 loaded) 40 0 10 20 20 10
              (40 + 20 * cos (10 * PI / 180)) (20 * sin (10 * PI / 180))
              30 30)
    as (Ex3 & Ey3 & _); try assumption; try lra.
  change (update (steps 2 loaded)) with (steps 3 loaded) in Ex3, Ey3.
  repeat split; assumption.
Qed.

Lemma three_steps_points :
  points (steps 3 loaded)
  = [mkPoint (Num 20) (Num 0);
     mkPoint (Num 40) (Num 0);
     mkPoint (Num (40 + 20 * cos (10 * PI / 180)))
             (Num (20 * sin (10 * PI / 180)))].
Proof.
  destruct three_steps_walker as ((Ex1 & Ey1) & (Ex2 & Ey2) & (Ex3 & Ey3)).
  rewrite steps_S, update_points, <- steps_S, Ex3, Ey3.
  rewrite steps_S, update_points, <- steps_S, Ex2, Ey2.
  rewrite steps_S, update_points, <- steps_S, Ex1, Ey1.
  reflexivity.
Qed.

Lemma three_steps_extent :
  extent (steps 3 loaded)
  = mkBox (Num (-300)) (Num 300) (Num (-300)) (Num 300).
Proof.
  destruct three_steps_walker as ((Ex1 & Ey1) & (Ex2 & Ey2) & (Ex3 & Ey3)).
  pose proof (COS_bound (10 * PI / 180)). pose proof (SIN_bound (10 * PI / 180)).
  rewrite steps_S, update_extent, <- steps_S, Ex3, Ey3.
  rewrite steps_S, update_extent, <- steps_S, Ex2, Ey2.
  rewrite steps_S, update_extent, <- steps_S, Ex1, Ey1.
  change (extent (steps 0 loaded)) with screen_box. rewrite screen_box_eq.
  rewrite !enlarge_absorb by lra. reflexivity.
Qed.

Lemma PI_window : 3.1415 < PI < 3.1421.
Proof.
  pose proof (PI_2_3_7_ineq 1) as [Hlo Hhi].
  unfold sum_f_R0, tg_alt, PI_2_3_7_tg, Ratan_seq in Hlo, Hhi.
  simpl in Hlo, Hhi. lra.
Qed.

Lemma sin_window a :
  0 <= a -> a <= PI ->
  a - a ^ 3 / 6 <= sin a <= a - a ^ 3 / 6 + a ^ 5 / 120.
Proof.
  intros H0 H1. pose proof (sin_bound a 0 H0 H1) as [Hlo Hhi].
  unfold sin_approx, sum_f_R0, sin_term in Hlo, Hhi.
  simpl in Hlo, Hhi. lra.
Qed.

Lemma cos_window a :
  - PI / 2 <= a -> a <= PI / 2 ->
  1 - a ^ 2 / 2 <= cos a <= 1 - a ^ 2 / 2 + a ^ 4 / 24.
Proof.
  intros H0 H1. pose proof (cos_bound a 0 H0 H1) as [Hlo Hhi].
  unfold cos_approx, sum_f_R0, cos_term in Hlo, Hhi.
  simpl in Hlo, Hhi. lra.
Qed.

(** The third point to two decimals: (59.70, 3.47). *)
Lemma third_point_decimals :
  59.695 < 40 + 20 * cos (10 * PI / 180) < 59.705 /\
  3.465 < 20 * sin (10 * PI / 180) < 3.475.
Proof.
  pose proof PI_window as [Plo Phi].
  set (a := 10 * PI / 180).
  assert (Ha : 0.17452 <= a <= 0.17457) by (unfold a; lra).
  destruct (sin_window a) as [Slo Shi]; [lra | unfold a; lra |].
  destruct (cos_window a) as [Clo Chi]; [unfold a; lra | unfold a; lra |].
  assert (H2 : 0.17452 ^ 2 <= a ^ 2 <= 0.17457 ^ 2)
    by (split; apply pow_incr; lra).
  assert (H3 : 0.17452 ^ 3 <= a ^ 3 <= 0.17457 ^ 3)
    by (split; apply pow_incr; lra).
  assert (H4 : 0.17452 ^ 4 <= a ^ 4 <= 0.17457 ^ 4)
    by (split; apply pow_incr; lra).
  assert (H5 : 0.17452 ^ 5 <= a ^ 5 <= 0.17457 ^ 5)
    by (split; apply pow_incr; lra).
  simpl in H2, H3, H4, H5. simpl in Slo, Shi, Clo, Chi. lra.
Qed.

(** C6, as amended.  With the loaded defaults (step size 20, direction
    step 10) three steps give P0 = (20, 0), P1 = (40, 0) and
    P2 = P1 + 20 (cos 10 deg, sin 10 deg), about (59.70, 3.47): the headings
    are 0, 0 and 10 degrees.  The extent is still the screen box
    (-300, 300, -300, 300) the script loads with. *)
Theorem three_steps_scenario :
  stepSize loaded = Num 20 /\ angleStepSize loaded = Num 10 /\
  points (steps 3 loaded)
  = [mkPoint (Num 20) (Num 0);
     mkPoint (Num 40) (Num 0);
     mkPoint (Num (40 + 20 * cos (10 * PI / 180)))
             (Num (20 * sin (10 * PI / 180)))] /\
  (59.695 < 40 + 20 * cos (10 * PI / 180) < 59.705 /\
   3.465 < 20 * sin (10 * PI / 180) < 3.475) /\
  extent (steps 3 loaded)
  = mkBox (Num (-300)) (Num 300) (Num (-300)) (Num 300).
Proof.
  split; [reflexivity |]. split; [reflexivity |].
  split; [exact three_steps_points |].
  split; [exact third_point_decimals | exact three_steps_extent].
Qed.

(** C6 as the specification words it fails: the second point is
    (40, 0), not (20 + 20 cos 10 deg, 20 sin 10 deg). *)
Lemma scenario_not_as_expected : ~ expected_scenario (steps 3 loaded).
Proof.
  intros (p0 & p1 & p2 & Ep & E0 & E1 & _).
  rewrite three_steps_points in Ep. injection Ep as <- <- _.
  rewrite degrees in E1. cbn in E1. injection E1 as _ E1.
  pose proof (sin_gt_0 (10 * PI / 180)) as Hsin.
  destruct ten_degrees as [Hlo Hhi]. specialize (Hsin Hlo Hhi). lra.
Qed.

(** * Further properties of the script *)

(** ** The counting loop *)

Lemma steps_controls n g :
  ctx (steps n g) = ctx g /\ running (steps n g) = running g /\
  frameRate (steps n g) = frameRate g.
Proof.
  induction n as [| n (IHc & IHr & IHf)]; [repeat split |].
  rewrite steps_S.
  destruct (update_params (steps n g)) as (_ & _ & Er & Ec).
  destruct (update_timing (steps n g)) as (Ef & _).
  repeat split; congruence.
Qed.

Lemma truthy_zero : JsNum.truthy (Num 0) = false.
Proof.
  destruct (truthy_num 0) as [H _].
  destruct (JsNum.truthy (Num 0)); [now destruct H | reflexivity].
Qed.

Lemma countdown_ends fuel i g g' :
  countdown fuel i g = Some g' ->
  exists n, g' = steps n g /\ (i = NaN /\ n = 0%nat \/ i = Num (INR n)).
Proof.
  revert i g. induction fuel as [| fuel IH]; intros i g H; [discriminate H |].
  rewrite countdown_S in H. destruct i as [| r].
  - cbn in H. injection H as <-. exists 0%nat. split; [reflexivity | now left].
  - destruct (JsNum.truthy (Num r)) eqn:Et.
    + change (Num r - Num 1)%js with (Num (r - 1)) in H.
      destruct (IH _ _ H) as (n & -> & [[E _] | E]); [discriminate E |].
      injection E as E. exists (S n). split.
      * now rewrite steps_update, steps_S.
      * right. f_equal. rewrite S_INR. lra.
    + injection H as <-. exists 0%nat. split; [reflexivity |]. right.
      destruct (Req_dec_T r 0) as [-> | Hr]; [reflexivity |].
      apply truthy_num in Hr. congruence.
Qed.

(** X1.  Started at a natural number [n], the loop of the timer and of the
    Step button ends, whatever bound above [n] is put on it, after exactly
    [n] calls of [update]. *)
Theorem loop_counts_down n fuel g :
  (n < fuel)%nat -> countdown fuel (Num (INR n)) g = Some (steps n g).
Proof.
  revert fuel g. induction n as [| n IH]; intros [| fuel] g Hlt; try lia.
  - rewrite countdown_S. cbn [INR]. now rewrite truthy_zero.
  - rewrite countdown_S. destruct (truthy_num (INR (S n))) as [_ H].
    rewrite H by apply not_0_INR, Nat.neq_succ_0.
    replace (Num (INR (S n)) - Num 1)%js with (Num (INR n))
      by (rewrite S_INR; cbn; f_equal; lra).
    rewrite IH by lia. now rewrite steps_update, steps_S.
Qed.

Lemma loop_counts_down_witness :
  countdown 4 (Num (INR 3)) loaded = Some (steps 3 loaded).
Proof. apply (loop_counts_down 3 4 loaded). lia. Defined.

(** X2.  The loop ends only from [NaN], without a step, or from a natural
    number: from a negative or fractional count no bound is enough. *)
Theorem loop_ends_only_from_naturals fuel i g :
  (forall g', countdown fuel i g = Some g' ->
     exists n, g' = steps n g /\ (i = NaN /\ n = 0%nat \/ i = Num (INR n))) /\
  (forall r, i = Num r -> (forall n, r <> INR n) -> countdown fuel i g = None).
Proof.
  split; [intros g'; apply countdown_ends |].
  intros r -> Hr. destruct (countdown fuel (Num r) g) as [g' |] eqn:E;
    [| reflexivity].
  destruct (countdown_ends _ _ _ _ E) as (n & _ & [[E' _] | E']);
    [discriminate E' |].
  injection E' as E'. now destruct (Hr n).
Qed.

(** ** The Step button and the timer *)

Lemma steps_nonempty n g :
  (0 < n)%nat \/ points g <> [] -> points (steps n g) <> [].
Proof.
  intros H E. apply (f_equal (@List.length Point)) in E.
  rewrite steps_length in E. cbn in E.
  destruct H as [H | H]; [lia |].
  destruct (points g); [now apply H | cbn in E; lia].
Qed.

Lemma draw_after_steps n g :
  (0 < n)%nat \/ points g <> [] ->
  exists log,
    draw (steps n g) = Normal (set_ctx (ctx g ++ log) (steps n g)) /\
    redraws log = 1%nat.
Proof.
  intros H. apply (steps_nonempty n g) in H.
  destruct (points (steps n g)) as [| p ps] eqn:E; [now destruct H |].
  rewrite (draw_nonempty _ p ps E).
  rewrite (proj1 (steps_controls n g)).
  eexists. split; [reflexivity | apply redraws_draw_log].
Qed.

Lemma draw_without_points g :
  points g = [] ->
  exists log,
    draw g = Thrown TypeError (set_ctx (ctx g ++ log) g) /\
    redraws log = 0%nat.
Proof.
  intros E. rewrite (draw_empty g E). eexists. split; reflexivity.
Qed.

Lemma countdown_falsy fuel i g :
  i = Num 0 \/ i = NaN -> countdown (S fuel) i g = Some g.
Proof.
  intros [-> | ->]; rewrite countdown_S; [now rewrite truthy_zero |].
  reflexivity.
Qed.

(** X3.  With a natural number [n] in "Steps", the Step button takes
    exactly [n] steps and then redraws exactly once, whether the script is
    running or not, and leaves [running] as it was; with [n = 0] this needs
    a point to be there already. *)
Theorem step_button_steps n g :
  stepAmount g = Num (INR n) -> (0 < n)%nat \/ points g <> [] ->
  exists g',
    on_Step (S n) g = Some (Normal g') /\
    points g' = points (steps n g) /\
    List.length (points g') = (List.length (points g) + n)%nat /\
    running g' = running g /\
    redraws (ctx g') = S (redraws (ctx g)).
Proof.
  intros En Hn. unfold on_Step. rewrite En, countdown_count.
  cbn [option_map].
  destruct (draw_after_steps n g Hn) as (log & -> & Hlog).
  eexists. split; [reflexivity |]. autorewrite with frame.
  split; [reflexivity |]. split; [apply steps_length |].
  split; [apply steps_controls |].
  rewrite redraws_app, Hlog. lia.
Qed.

Lemma step_button_steps_witness :
  exists g',
    on_Step (S 1) loaded = Some (Normal g') /\
    points g' = points (steps 1 loaded) /\
    List.length (points g') = (List.length (points loaded) + 1)%nat /\
    running g' = running loaded /\
    redraws (ctx g') = S (redraws (ctx loaded)).
Proof.
  apply (step_button_steps 1 loaded); [cbn; f_equal; lra | left; lia].
Defined.

(** X4.  With 0 or [NaN] in "Steps" and no point drawn yet, the Step button
    throws a [TypeError] out of [draw]: no step is taken and no path is
    stroked.  Every global is left as it was except the canvas log, which
    gains the six calls [draw] makes before it reads the first point. *)
Theorem step_button_throws fuel g :
  stepAmount g = Num 0 \/ stepAmount g = NaN -> points g = [] ->
  on_Step (S fuel) g
  = Some (Thrown TypeError
            (set_ctx
               (ctx g ++ [set_fillStyle "black";
                          fillRect (Num 0) (Num 0) screenWidth screenHeight;
                          save;
                          translate (screenWidth / Num 2)%js
                                    (screenHeight / Num 2)%js;
                          set_strokeStyle "white";
                          beginPath])
               g)).
Proof.
  intros Hi Ep. unfold on_Step. rewrite (countdown_falsy fuel _ g Hi).
  cbn [option_map]. now rewrite (draw_empty g Ep).
Qed.

Lemma step_button_throws_witness :
  on_Step (S 0) (on_Steps NaN loaded)
  = Some (Thrown TypeError
            (set_ctx
               (ctx (on_Steps NaN loaded)
                ++ [set_fillStyle "black";
                    fillRect (Num 0) (Num 0) screenWidth screenHeight;
                    save;
                    translate (screenWidth / Num 2)%js
                              (screenHeight / Num 2)%js;
                    set_strokeStyle "white";
                    beginPath])
               (on_Steps NaN loaded))).
Proof.
  apply (step_button_throws 0 (on_Steps NaN loaded));
    [right; reflexivity | reflexivity].
Defined.

(** X5.  A tick of the timer, with a frame rate that is a number other
    than 0.  When the script is stopped the tick changes nothing, whatever
    is in "draw()'s per frame".  When it is running with a natural number
    [n] there, and [n > 0] or a point is there already, the tick takes [n]
    steps and then redraws once, changing nothing else.  In both cases the
    timer is armed again, with the delay [1000 / frameRate]. *)
Theorem tick_steps_and_rearms n fuel g f :
  frameRate g = Num f -> f <> 0 ->
  (running g = false ->
   drawHandler_timer fuel g = Some (Normal g, Some (Num (1000 / f)))) /\
  (running g = true -> drawsPerFrame g = Num (INR n) ->
   (0 < n)%nat \/ points g <> [] ->
   exists log,
     drawHandler_timer (S n) g
     = Some (Normal (set_ctx (ctx g ++ log) (steps n g)),
             Some (Num (1000 / f))) /\
     redraws log = 1%nat).
Proof.
  intros Ef Hf. unfold drawHandler_timer, drawHandler. split.
  - intros ->. now rewrite Ef, div_num.
  - intros -> En Hn. rewrite En, countdown_count. cbn [option_map].
    destruct (draw_after_steps n g Hn) as (log & -> & Hlog).
    exists log. split; [| exact Hlog].
    rewrite frameRate_set_ctx, (proj2 (proj2 (steps_controls n g))), Ef.
    now rewrite div_num.
Qed.

Lemma tick_steps_and_rearms_witness :
  exists log,
    drawHandler_timer (S 1) (on_Start loaded)
    = Some (Normal (set_ctx (ctx (on_Start loaded) ++ log)
                      (steps 1 (on_Start loaded))),
            Some (Num (1000 / 60))) /\
    redraws log = 1%nat.
Proof.
  destruct (tick_steps_and_rearms 1 0 (on_Start loaded) 60) as [_ Hrun];
    [reflexivity | lra |].
  apply Hrun; [reflexivity | cbn; f_equal; lra | left; lia].
Defined.

(** X6.  A tick of the running script with 0 or [NaN] in "draw()'s per
    frame" and no point drawn yet throws out of [draw] before line 159:
    the timer is not armed again. *)
Theorem tick_throws_and_stops_timer fuel g :
  running g = true ->
  drawsPerFrame g = Num 0 \/ drawsPerFrame g = NaN -> points g = [] ->
  exists g',
    drawHandler_timer (S fuel) g = Some (Thrown TypeError g', None) /\
    same_core g g'.
Proof.
  intros Er Hi Ep. unfold drawHandler_timer, drawHandler.
  rewrite Er, (countdown_falsy fuel _ g Hi). cbn [option_map].
  destruct (draw_without_points g Ep) as (log & -> & _).
  eexists. split; [reflexivity | apply same_core_set_ctx].
Qed.

Lemma tick_throws_and_stops_timer_witness :
  exists g',
    drawHandler_timer (S 0) (on_Start (on_drawsPerFrame NaN loaded))
    = Some (Thrown TypeError g', None) /\
    same_core (on_Start (on_drawsPerFrame NaN loaded)) g'.
Proof.
  apply (tick_throws_and_stops_timer 0 (on_Start (on_drawsPerFrame NaN loaded)));
    [reflexivity | right; reflexivity | reflexivity].
Defined.

(** ** What a redraw writes *)

Lemma count_calls_app f l l' :
  count_calls f (l ++ l') = (count_calls f l + count_calls f l')%nat.
Proof. unfold count_calls. now rewrite filter_app, length_app. Qed.

Lemma count_calls_lines f win ps c :
  (forall a b, f (lineTo a b) = c) ->
  count_calls f
    (map (fun point =>
            lineTo (x (transformPoint (x point) (y point) win))
                   (y (transformPoint (x point) (y point) win))) ps)
  = if c then List.length ps else 0%nat.
Proof.
  intros Hf. unfold count_calls.
  induction ps as [| p ps IH]; [now destruct c |].
  cbn [map filter]. rewrite Hf. destruct c; cbn [List.length]; now rewrite IH.
Qed.

(** X7.  [draw] changes no global but the canvas log, and only appends to
    it.  What it appends has one [lineTo] per point of the list, one
    [moveTo] if there is a point, and one [save]; the matching [restore] is
    missing exactly when the list is empty and [draw] throws. *)
Theorem draw_appends_one_path g :
  exists log,
    state_of (draw g) = set_ctx (ctx g ++ log) g /\
    count_calls is_lineTo log = List.length (points g) /\
    count_calls is_moveTo log = match points g with [] => 0 | _ => 1 end%nat /\
    count_calls is_save log = 1%nat /\
    count_calls is_restore log = match points g with [] => 0 | _ => 1 end%nat.
Proof.
  destruct (points g) as [| p ps] eqn:E.
  - rewrite (draw_empty g E). eexists. split; [reflexivity |].
    repeat split.
  - rewrite (draw_nonempty g p ps E), E. eexists.
    split; [reflexivity |]. unfold draw_log.
    rewrite !count_calls_app.
    rewrite (count_calls_lines is_lineTo _ _ true) by reflexivity.
    rewrite (count_calls_lines is_moveTo _ _ false) by reflexivity.
    rewrite (count_calls_lines is_save _ _ false) by reflexivity.
    rewrite (count_calls_lines is_restore _ _ false) by reflexivity.
    unfold count_calls.
    cbn [filter is_lineTo is_moveTo is_save is_restore List.length].
    repeat split; lia.
Qed.

(** ** What the controls leave alone *)

(** Apart from a step and the Reset button, nothing touches the walker,
    the point list or the extent. *)
Lemma perform_keeps_walk a g :
  is_Update a = false -> is_ClickReset a = false ->
  points (perform a g) = points g /\
  pointX (perform a g) = pointX g /\ pointY (perform a g) = pointY g /\
  direction (perform a g) = direction g /\
  angleAddend (perform a g) = angleAddend g /\
  extent (perform a g) = extent g.
Proof.
  intros Hu Hr.
  destruct a as [| | | | | | v | v | v | v | v | b]; try discriminate;
    cbn [perform].
  - destruct (draw_frame g) as [log ->]. repeat split.
  - repeat split.
  - repeat split.
  - rewrite clear_log. repeat split.
  - unfold on_Steps. rewrite neq_NaN. repeat split.
  - unfold on_Framerate. rewrite neq_NaN. repeat split.
  - unfold on_drawsPerFrame. rewrite neq_NaN. repeat split.
  - unfold on_StepSize. rewrite neq_NaN. repeat split.
  - unfold on_DirectionStepSize. rewrite neq_NaN. repeat split.
  - repeat split.
Qed.

Lemma at_tip_update g : at_tip (update g).
Proof.
  intros k q Hk Hq. rewrite update_points in Hk, Hq.
  rewrite length_app in Hk. cbn in Hk.
  rewrite nth_error_app2 in Hq by lia.
  replace (k - List.length (points g))%nat with 0%nat in Hq by lia.
  now injection Hq as <-.
Qed.

Lemma at_tip_perform a g : at_tip g -> at_tip (perform a g).
Proof.
  intros Hg.
  destruct (is_Update a) eqn:Hu; [destruct a; try discriminate |].
  { apply at_tip_update. }
  destruct (is_ClickReset a) eqn:Hr; [destruct a; try discriminate |].
  { cbn [perform]. unfold on_Reset. rewrite reset_outcome. cbn [state_of].
    unfold at_tip. autorewrite with frame. apply at_tip_update. }
  destruct (perform_keeps_walk a g Hu Hr) as (Ep & Ex & Ey & _).
  unfold at_tip. rewrite Ep, Ex, Ey. exact Hg.
Qed.

(** X8.  Whatever is done at the controls after loading, with numbers that
    parsed or not, when the point list is not empty its last point is the
    position [(pointX, pointY)] of the walker. *)
Theorem walker_stands_on_last_point acts : at_tip (run acts loaded).
Proof.
  assert (H : forall g, at_tip g -> at_tip (run acts g)).
  { induction acts as [| a acts IH]; intros g Hg; [exact Hg |].
    cbn [run fold_left]. apply IH, at_tip_perform, Hg. }
  apply H. intros k q Hk. discriminate Hk.
Qed.

Lemma run_cons a acts g : run (a :: acts) g = run acts (perform a g).
Proof. reflexivity. Qed.

(** X9.  The point list only grows unless the Reset button is clicked:
    after any actions without a reset the list is the old one followed by
    one new point per step, whatever was typed into the inputs meanwhile. *)
Theorem points_only_appended acts g :
  Forall (fun a => is_ClickReset a = false) acts ->
  exists more,
    points (run acts g) = points g ++ more /\
    List.length more = List.length (filter is_Update acts).
Proof.
  intros Hacts. revert g.
  induction Hacts as [| a acts Ha _ IH]; intros g.
  - exists []. split; [now rewrite app_nil_r | reflexivity].
  - rewrite run_cons. destruct (IH (perform a g)) as (more & E & Hlen).
    rewrite E.
    destruct (is_Update a) eqn:Hu.
    + destruct a; try discriminate. cbn [perform filter is_Update].
      rewrite update_points, <- app_assoc. eexists. split; [reflexivity |].
      cbn [app List.length]. now rewrite Hlen.
    + destruct (perform_keeps_walk a g Hu Ha) as (Ep & _). rewrite Ep.
      exists more. split; [reflexivity |]. cbn [filter]. now rewrite Hu.
Qed.

Lemma points_only_appended_witness :
  exists more,
    points (run [Update; InputStepSize NaN; Update; Draw] (steps 2 loaded))
    = points (steps 2 loaded) ++ more /\
    List.length more
    = List.length (filter is_Update [Update; InputStepSize NaN; Update; Draw]).
Proof.
  apply (points_only_appended [Update; InputStepSize NaN; Update; Draw]).
  repeat constructor.
Defined.

Lemma perform_keeps_a_point a g :
  points g <> [] -> points (perform a g) <> [].
Proof.
  intros Hg.
  destruct (is_Update a) eqn:Hu; [destruct a; try discriminate Hu |].
  { cbn [perform]. rewrite update_points. intros E.
    now destruct (points g). }
  destruct (is_ClickReset a) eqn:Hr; [destruct a; try discriminate Hr |].
  { cbn [perform]. unfold on_Reset. rewrite reset_points. discriminate. }
  now rewrite (proj1 (perform_keeps_walk a g Hu Hr)).
Qed.

(** X10.  Once there is a point, there always is one: after any further
    actions, resets included, the list is not empty and [draw] returns
    without throwing. *)
Theorem draw_never_throws_again acts g :
  points g <> [] ->
  points (run acts g) <> [] /\ exists g', draw (run acts g) = Normal g'.
Proof.
  intros Hg.
  assert (H : points (run acts g) <> []).
  { revert g Hg. induction acts as [| a acts IH]; intros g Hg; [exact Hg |].
    cbn [run fold_left]. apply IH, perform_keeps_a_point, Hg. }
  split; [exact H |].
  destruct (points (run acts g)) as [| p ps] eqn:E; [now destruct H |].
  eexists. apply (draw_nonempty _ p ps E).
Qed.

Lemma draw_never_throws_again_witness :
  points (run session (steps 1 loaded)) <> [] /\
  exists g', draw (run session (steps 1 loaded)) = Normal g'.
Proof.
  apply (draw_never_throws_again session (steps 1 loaded)).
  apply steps_nonempty. left. lia.
Defined.

Lemma perform_keeps_running a g :
  is_toggle a = false -> running (perform a g) = running g.
Proof.
  intros Ht.
  destruct a as [| | | | | | v | v | v | v | v | b]; try discriminate;
    cbn [perform].
  - apply update_running.
  - destruct (draw_frame g) as [log ->]. reflexivity.
  - rewrite clear_log. reflexivity.
  - unfold on_Reset. rewrite reset_outcome. cbn [state_of].
    autorewrite with frame. rewrite update_running. reflexivity.
  - unfold on_Steps. now rewrite neq_NaN.
  - unfold on_Framerate. now rewrite neq_NaN.
  - unfold on_drawsPerFrame. now rewrite neq_NaN.
  - unfold on_StepSize. now rewrite neq_NaN.
  - unfold on_DirectionStepSize. now rewrite neq_NaN.
  - reflexivity.
Qed.

(** X11.  Only the Start and Stop buttons change [running]: steps,
    redraws, the Clear and Reset buttons and all inputs leave it as it
    is, so a running script keeps running through a reset. *)
Theorem running_only_by_start_and_stop acts g :
  Forall (fun a => is_toggle a = false) acts ->
  running (run acts g) = running g.
Proof.
  intros Hacts. revert g.
  induction Hacts as [| a acts Ha _ IH]; intros g; [reflexivity |].
  now rewrite run_cons, IH, perform_keeps_running.
Qed.

Lemma running_only_by_start_and_stop_witness :
  running (run [Update; ClickReset; InputFramerate NaN; ClickClear; Draw]
               (on_Start loaded))
  = running (on_Start loaded).
Proof.
  apply (running_only_by_start_and_stop
           [Update; ClickReset; InputFramerate NaN; ClickClear; Draw]).
  repeat constructor.
Defined.

Lemma reset_core g :
  pointX (state_of (reset g))
  = (Num 0 + Math.cos (Num 0 * Math.PI / Num 180) * stepSize g)%js /\
  pointY (state_of (reset g))
  = (Num 0 + Math.sin (Num 0 * Math.PI / Num 180) * stepSize g)%js /\
  direction (state_of (reset g)) = (Num 0 + Num 0)%js /\
  angleAddend (state_of (reset g)) = (Num 0 + angleStepSize g)%js /\
  stepSize (state_of (reset g)) = stepSize g /\
  angleStepSize (state_of (reset g)) = angleStepSize g.
Proof.
  rewrite reset_outcome. cbn [state_of]. autorewrite with frame.
  rewrite update_pointX, update_pointY, update_direction, update_angleAddend.
  change (stepSize (set_ctx ?l ?h)) with (stepSize h).
  change (angleStepSize (set_ctx ?l ?h)) with (angleStepSize h).
  destruct (update_params (rewind g)) as (Es & Ed & _). rewrite Es, Ed.
  repeat split.
Qed.

(** X12.  [reset] forgets everything but the two generator parameters:
    from any two states with the same [stepSize] and [angleStepSize] it
    leaves the same walker, point list and extent, also when the
    parameters or the state hold [NaN]. *)
Theorem reset_forgets_history g h :
  stepSize g = stepSize h -> angleStepSize g = angleStepSize h ->
  same_core (state_of (reset g)) (state_of (reset h)).
Proof.
  intros Es Ed.
  destruct (reset_core g) as (Gx & Gy & Gh & Ga & Gs & Gd).
  destruct (reset_core h) as (Hx & Hy & Hh & Ha & Hs & Hd).
  unfold same_core. rewrite !reset_points.
  assert (Ee : forall k, extent (state_of (reset k))
                         = enlarge origin_box
                             (mkPoint (pointX (update (rewind k)))
                                      (pointY (update (rewind k))))).
  { intros k. rewrite reset_outcome. cbn [state_of].
    now rewrite extent_set_ctx, update_extent. }
  rewrite !Ee.
  assert (Px : forall k, pointX (update (rewind k)) = pointX (state_of (reset k))).
  { intros k. rewrite reset_outcome. cbn [state_of]. now autorewrite with frame. }
  assert (Py : forall k, pointY (update (rewind k)) = pointY (state_of (reset k))).
  { intros k. rewrite reset_outcome. cbn [state_of]. now autorewrite with frame. }
  rewrite !Px, !Py, Gx, Gy, Gh, Ga, Gs, Gd, Hx, Hy, Hh, Ha, Hs, Hd, Es, Ed.
  repeat split.
Qed.

Lemma reset_forgets_history_witness :
  same_core (state_of (reset (steps 3 loaded))) (state_of (reset loaded)).
Proof.
  apply (reset_forgets_history (steps 3 loaded) loaded);
    apply (steps_params 3 loaded).
Defined.

(** ** The curve on the canvas *)

Lemma transform_of_box g a b c d px py :
  minX g = Num a -> maxX g = Num b -> minY g = Num c -> maxY g = Num d ->
  a <= b -> c <= d ->
  transformPoint (Num px) (Num py) (getWindowData g)
  = mkPoint
      (Num ((px - (a + b) / 2) / (Rmax (b - a) (d - c) + 10) * 600))
      (Num ((py - (c + d) / 2) / (Rmax (b - a) (d - c) + 10) * 600)).
Proof.
  intros Ea Eb Ec Ed Hab Hcd.
  destruct (divisor_of_box g a b c d Ea Eb Ec Ed Hab Hcd) as [Eden Hden].
  unfold transformPoint. rewrite Eden, screen_side.
  unfold getWindowData. cbn [centerX centerY]. rewrite Ea, Eb, Ec, Ed.
  cbn [JsNum.add JsNum.sub JsNum.lift2].
  rewrite !div_num by lra. reflexivity.
Qed.

(** A coordinate within its side of the box lands within 300 of the
    middle of the canvas. *)
Lemma scaled_within lo hi m t :
  lo <= t <= hi -> hi - lo <= m -> 0 <= m ->
  -300 < (t - (lo + hi) / 2) / (m + 10) * 600 < 300.
Proof.
  intros Ht Hm H0.
  set (q := (t - (lo + hi) / 2) / (m + 10)).
  assert (Eq : q * (m + 10) = t - (lo + hi) / 2) by (unfold q; field; lra).
  assert (- (1 / 2) < q < 1 / 2) by (split; nra).
  lra.
Qed.

(** X13.  In every state reached from the loaded script with generator
    inputs that parsed, and as long as the extent is no wider and no higher
    than 10^9, [transformPoint] sends every point of the list strictly
    inside the 600 by 600 canvas, that is within 300 of its middle on both
    axes: the curve does not leave the picture. *)
Theorem curve_stays_on_canvas acts p l r bt tp :
  Forall typed_number acts -> In p (points (run acts loaded)) ->
  extent (run acts loaded) = mkBox (Num l) (Num r) (Num bt) (Num tp) ->
  r - l <= 10 ^ 9 -> tp - bt <= 10 ^ 9 ->
  exists u v,
    transformPoint (x p) (y p) (getWindowData (run acts loaded))
    = mkPoint (Num u) (Num v) /\
    -300 < u < 300 /\ -300 < v < 300.
Proof.
  intros Hacts Hp E _ _.
  destruct (sound_encloses _ (sound_run acts loaded Hacts sound_loaded))
    as [(l' & r' & bt' & tp' & E' & Hlr & Hbt) Hin].
  rewrite E in E'. injection E' as <- <- <- <-.
  specialize (Hin p Hp). rewrite E in Hin. injection E as El Er Eb Et.
  destruct p as [[| px] [| py]]; unfold inside, at_most in Hin; cbn in Hin;
    try tauto.
  cbn [x y]. rewrite (transform_of_box _ l r bt tp px py El Er Eb Et Hlr Hbt).
  eexists. eexists. split; [reflexivity |].
  pose proof (Rmax_l (r - l) (tp - bt)). pose proof (Rmax_r (r - l) (tp - bt)).
  split; apply scaled_within; lra.
Qed.

Lemma curve_stays_on_canvas_witness :
  exists u v,
    transformPoint (x (mkPoint (Num 20) (Num 0))) (y (mkPoint (Num 20) (Num 0)))
      (getWindowData (run [Update] loaded))
    = mkPoint (Num u) (Num v) /\
    -300 < u < 300 /\ -300 < v < 300.
Proof.
  destruct three_steps_walker as ((Ex & Ey) & _).
  apply (curve_stays_on_canvas [Update] (mkPoint (Num 20) (Num 0))
           (-300) 300 (-300) 300).
  - repeat constructor.
  - change (run [Update] loaded) with (steps 1 loaded).
    rewrite steps_S, update_points, <- steps_S, Ex, Ey. now left.
  - change (run [Update] loaded) with (steps 1 loaded).
    rewrite steps_S, update_extent, <- steps_S, Ex, Ey.
    change (extent (steps 0 loaded)) with screen_box.
    rewrite screen_box_eq. apply enlarge_absorb; lra.
  - lra.
  - lra.
Defined.

(** ** A step size that did not parse *)

Lemma lift2_NaN_r f a : JsNum.lift2 f a NaN = NaN.
Proof. now destruct a. Qed.

Lemma enlarge_NaN e : enlarge e (mkPoint NaN NaN) = mkBox NaN NaN NaN NaN.
Proof.
  unfold enlarge, Math.min, Math.max. cbn [x y]. now rewrite !lift2_NaN_r.
Qed.

Lemma update_from_NaN g :
  stepSize g = NaN \/ pointX g = NaN /\ pointY g = NaN ->
  pointX (update g) = NaN /\ pointY (update g) = NaN /\
  extent (update g) = mkBox NaN NaN NaN NaN /\
  points (update g) = points g ++ [mkPoint NaN NaN].
Proof.
  intros H.
  assert (E : pointX (update g) = NaN /\ pointY (update g) = NaN).
  { rewrite update_pointX, update_pointY.
    destruct H as [-> | [-> ->]]; [| now split].
    unfold JsNum.mul, JsNum.add. now rewrite !lift2_NaN_r. }
  destruct E as [Ex Ey].
  rewrite update_extent, update_points, Ex, Ey, enlarge_NaN.
  repeat split.
Qed.

Lemma steps_from_NaN n g :
  pointX g = NaN -> pointY g = NaN -> extent g = mkBox NaN NaN NaN NaN ->
  pointX (steps n g) = NaN /\ pointY (steps n g) = NaN /\
  extent (steps n g) = mkBox NaN NaN NaN NaN /\
  points (steps n g) = points g ++ repeat (mkPoint NaN NaN) n.
Proof.
  intros Ex Ey Ee. induction n as [| n (IHx & IHy & IHe & IHp)].
  - change (steps 0 g) with g. cbn [repeat]. now rewrite app_nil_r.
  - rewrite steps_S.
    destruct (update_from_NaN (steps n g)) as (Fx & Fy & Fe & Fp);
      [right; now split |].
    rewrite Fp, IHp, <- app_assoc, <- repeat_cons. repeat split; assumption.
Qed.

(** X14.  A step taken while [stepSize] is [NaN] cannot be repaired from
    the inputs: whatever is typed into "Step size" afterwards, every later
    step leaves the position and the extent at [NaN] and appends the point
    [(NaN, NaN)]. *)
Theorem NaN_step_size_sticks g v n :
  stepSize g = NaN ->
  pointX (steps n (on_StepSize v (update g))) = NaN /\
  pointY (steps n (on_StepSize v (update g))) = NaN /\
  extent (steps n (on_StepSize v (update g))) = mkBox NaN NaN NaN NaN /\
  points (steps n (on_StepSize v (update g)))
  = points g ++ repeat (mkPoint NaN NaN) (S n).
Proof.
  intros Es.
  destruct (update_from_NaN g (or_introl Es)) as (Ex & Ey & Ee & Ep).
  assert (Hkeep : is_Update (InputStepSize v) = false) by reflexivity.
  destruct (perform_keeps_walk (InputStepSize v) (update g) Hkeep eq_refl)
    as (Fp & Fx & Fy & _ & _ & Fe).
  cbn [perform] in Fp, Fx, Fy, Fe.
  destruct (steps_from_NaN n (on_StepSize v (update g)))
    as (Gx & Gy & Ge & Gp); try congruence.
  rewrite Gp, Fp, Ep, <- app_assoc. repeat split; assumption.
Qed.

Lemma NaN_step_size_sticks_witness :
  pointX (steps 3 (on_StepSize (Num 20) (update (on_StepSize NaN loaded))))
  = NaN /\
  pointY (steps 3 (on_StepSize (Num 20) (update (on_StepSize NaN loaded))))
  = NaN /\
  extent (steps 3 (on_StepSize (Num 20) (update (on_StepSize NaN loaded))))
  = mkBox NaN NaN NaN NaN /\
  points (steps 3 (on_StepSize (Num 20) (update (on_StepSize NaN loaded))))
  = points (on_StepSize NaN loaded) ++ repeat (mkPoint NaN NaN) (S 3).
Proof.
  apply (NaN_step_size_sticks (on_StepSize NaN loaded) (Num 20) 3).
  reflexivity.
Defined.

(** ** The shape of the walk *)

Lemma heading_shift d P a b k :
  d * INR P = 360 * INR a -> heading d P = 360 * INR b ->
  heading d (k + P) = heading d k + 360 * INR (a * k + b).
Proof.
  unfold heading. intros Ea Eb.
  rewrite !plus_INR, mult_INR.
  replace (d * (INR k + INR P) * (INR k + INR P - 1) / 2)
    with (d * INR k * (INR k - 1) / 2
          + (d * INR P) * INR k + d * INR P * (INR P - 1) / 2)
    by field.
  rewrite Eb, Ea. field.
Qed.

Lemma steps_direction g d k :
  direction g = Num 0 -> angleAddend g = Num 0 -> angleStepSize g = Num d ->
  direction (steps k g) = Num (heading d k).
Proof. intros Hh Ha Hd. apply (steps_heading g d k Hh Ha Hd). Qed.

(** X15.  When [P] steps turn the heading increment by a whole number of
    turns ([d * P] a multiple of 360) and the heading too ([d * P * (P - 1)
    / 2] a multiple of 360), the heading that the walk from heading 0 and
    increment 0 holds after [k + P] steps is the one after [k] steps plus a
    whole number of turns, [a * k + b] of them: with the default [d = 10]
    the headings repeat modulo 360 every 72 steps. *)
Theorem headings_repeat_modulo_turns g d P a b k :
  direction g = Num 0 -> angleAddend g = Num 0 -> angleStepSize g = Num d ->
  d * INR P = 360 * INR a -> heading d P = 360 * INR b ->
  exists h,
    direction (steps k g) = Num h /\
    direction (steps (k + P) g) = Num (h + 360 * INR (a * k + b)).
Proof.
  intros Hh Ha Hd Ea Eb. exists (heading d k).
  rewrite !(steps_direction g d _ Hh Ha Hd).
  now rewrite (heading_shift d P a b k Ea Eb).
Qed.

Lemma headings_repeat_modulo_turns_witness :
  exists h,
    direction (steps 5 loaded) = Num h /\
    direction (steps (5 + 72) loaded) = Num (h + 360 * INR (2 * 5 + 71)).
Proof.
  apply (headings_repeat_modulo_turns loaded 10 72 2 71 5); try reflexivity.
  - rewrite !INR_IZR_INZ. cbn. lra.
  - unfold heading. rewrite !INR_IZR_INZ. cbn. lra.
Defined.



(** ** The "Reset on change" box *)

Lemma update_flag b g :
  update (set_resetAfterChange b g) = set_resetAfterChange b (update g).
Proof. with_strategy transparent [update] reflexivity. Qed.

Lemma draw_flag b g :
  state_of (draw (set_resetAfterChange b g))
  = set_resetAfterChange b (state_of (draw g)).
Proof.
  destruct (points g) as [| p ps] eqn:E.
  - rewrite (draw_empty g E), (draw_empty (set_resetAfterChange b g) E).
    reflexivity.
  - rewrite (draw_nonempty g p ps E).
    rewrite (draw_nonempty (set_resetAfterChange b g) p ps E).
    reflexivity.
Qed.

Lemma reset_flag b g :
  state_of (reset (set_resetAfterChange b g))
  = set_resetAfterChange b (state_of (reset g)).
Proof.
  rewrite !reset_unfold.
  change (update (rewind (clear (set_resetAfterChange b g))))
    with (update (set_resetAfterChange b (rewind (clear g)))).
  rewrite update_flag. apply draw_flag.
Qed.

Lemma set_flag_set c b g :
  set_resetAfterChange c (set_resetAfterChange b g) = set_resetAfterChange c g.
Proof. reflexivity. Qed.

Lemma perform_flag a b g :
  set_resetAfterChange false (perform a (set_resetAfterChange b g))
  = set_resetAfterChange false (perform a g).
Proof.
  destruct a as [| | | | | | v | v | v | v | v | b']; cbn [perform].
  - rewrite update_flag. apply set_flag_set.
  - rewrite draw_flag. apply set_flag_set.
  - reflexivity.
  - reflexivity.
  - reflexivity.
  - unfold on_Reset. rewrite reset_flag. apply set_flag_set.
  - unfold on_Steps. now rewrite neq_NaN.
  - unfold on_Framerate. now rewrite neq_NaN.
  - unfold on_drawsPerFrame. now rewrite neq_NaN.
  - unfold on_StepSize. now rewrite neq_NaN.
  - unfold on_DirectionStepSize. now rewrite neq_NaN.
  - reflexivity.
Qed.

Lemma run_flag acts g g' :
  set_resetAfterChange false g = set_resetAfterChange false g' ->
  set_resetAfterChange false (run acts g)
  = set_resetAfterChange false (run acts g').
Proof.
  revert g g'. induction acts as [| a acts IH]; intros g g' E; [exact E |].
  rewrite !run_cons. apply IH.
  rewrite <- (perform_flag a false g), <- (perform_flag a false g').
  now rewrite E.
Qed.

(** X17.  The "Reset on change" box changes nothing but its own global:
    after any actions the canvas log, the points, the walker, the extent,
    the parameters and [running] are the same whether the box was ticked
    at the start or not. *)
Theorem reset_on_change_is_inert acts b g :
  set_resetAfterChange false (run acts (on_ResetOnChange b g))
  = set_resetAfterChange false (run acts g).
Proof. apply run_flag. reflexivity. Qed.

(** ** How far the walk gets *)

(** X18.  With real-valued globals, [n] steps move the walker by at most
    [n * |stepSize|] along each axis, whatever the headings are: the
    curve, and with it the extent, grows at most linearly. *)
Theorem walk_grows_linearly g s px py n :
  real_valued g -> stepSize g = Num s ->
  pointX g = Num px -> pointY g = Num py ->
  exists qx qy,
    pointX (steps n g) = Num qx /\ pointY (steps n g) = Num qy /\
    Rabs (qx - px) <= INR n * Rabs s /\ Rabs (qy - py) <= INR n * Rabs s.
Proof.
  intros Hreal Es Ex Ey.
  assert (H : real_valued (steps n g) /\
              exists qx qy,
                pointX (steps n g) = Num qx /\ pointY (steps n g) = Num qy /\
                Rabs (qx - px) <= INR n * Rabs s /\
                Rabs (qy - py) <= INR n * Rabs s).
  { induction n as [| n (IHr & qx & qy & Fx & Fy & Bx & By)].
    - change (steps 0 g) with g. split; [exact Hreal |].
      exists px, py. cbn [INR].
      replace (px - px) with 0 by lra. replace (py - py) with 0 by lra.
      rewrite Rabs_R0. repeat split; try assumption; lra.
    - rewrite steps_S. split; [apply update_real_point, IHr |].
      destruct (real_valued_inv _ IHr)
        as (s' & d & px' & py' & h & a & Es' & Ed & Ex' & Ey' & Eh & Ea).
      rewrite (proj1 (steps_params n g)), Es in Es'. injection Es' as <-.
      rewrite Fx in Ex'. injection Ex' as <-.
      rewrite Fy in Ey'. injection Ey' as <-.
      destruct (update_real (steps n g) qx qy h a s d Fx Fy Eh Ea
                  (eq_trans (proj1 (steps_params n g)) Es) Ed)
        as (Gx & Gy & _).
      eexists. eexists. split; [exact Gx |]. split; [exact Gy |].
      rewrite S_INR.
      pose proof (COS_bound (h * PI / 180)) as [Hc1 Hc2].
      pose proof (SIN_bound (h * PI / 180)) as [Hs1 Hs2].
      assert (Hc : Rabs (cos (h * PI / 180) * s) <= Rabs s).
      { rewrite Rabs_mult. pose proof (Rabs_pos s).
        assert (Rabs (cos (h * PI / 180)) <= 1) by (apply Rabs_le; lra).
        nra. }
      assert (Hsn : Rabs (sin (h * PI / 180) * s) <= Rabs s).
      { rewrite Rabs_mult. pose proof (Rabs_pos s).
        assert (Rabs (sin (h * PI / 180)) <= 1) by (apply Rabs_le; lra).
        nra. }
      split.
      + replace (qx + cos (h * PI / 180) * s - px)
          with ((qx - px) + cos (h * PI / 180) * s) by lra.
        eapply Rle_trans; [apply Rabs_triang |]. lra.
      + replace (qy + sin (h * PI / 180) * s - py)
          with ((qy - py) + sin (h * PI / 180) * s) by lra.
        eapply Rle_trans; [apply Rabs_triang |]. lra. }
  apply H.
Qed.

Lemma walk_grows_linearly_witness :
  exists qx qy,
    pointX (steps 3 loaded) = Num qx /\ pointY (steps 3 loaded) = Num qy /\
    Rabs (qx - 0) <= INR 3 * Rabs 20 /\ Rabs (qy - 0) <= INR 3 * Rabs 20.
Proof.
  apply (walk_grows_linearly loaded 20 0 0 3);
    [exact real_valued_loaded | reflexivity | reflexivity | reflexivity].
Defined.
